(** * NeuroGlyph protocol engine (HiRI.py): parser, registry, validator,
    formatter and active-context accumulator.

    A Python [str] is a sequence of Unicode code points, and the token
    pattern of [NeuroGlyphParser] works code point by code point, so texts
    are lists of code points here.  A Python [dict] keeps its keys in
    insertion order and [format_message] walks it in that order, so
    dictionaries are association lists with an in-place update. *)

From Stdlib Require Import List NArith Bool Arith Lia.
From Stdlib Require Import Strings.String Strings.Ascii Strings.Byte.
Import ListNotations.

(** ** Texts *)

Definition text := list N.

(** Literals are written as UTF-8 strings and decoded to code points. *)
Fixpoint utf8_go (need : nat) (acc : N) (bs : list N) : text :=
  match bs with
  | [] => []
  | b :: r =>
      match need with
      | O =>
          if (b <? 0x80)%N then b :: utf8_go 0 0%N r
          else if (b <? 0xE0)%N then utf8_go 1 (b - 0xC0)%N r
          else if (b <? 0xF0)%N then utf8_go 2 (b - 0xE0)%N r
          else utf8_go 3 (b - 0xF0)%N r
      | S n =>
          let acc' := (acc * 64 + (b - 0x80))%N in
          match n with
          | O => acc' :: utf8_go 0 0%N r
          | S _ => utf8_go n acc' r
          end
      end
  end.

Definition U (s : string) : text :=
  utf8_go 0 0%N (map Byte.to_N (list_byte_of_string s)).

Fixpoint text_eqb (a b : text) : bool :=
  match a, b with
  | [], [] => true
  | x :: a', y :: b' => (x =? y)%N && text_eqb a' b'
  | _, _ => false
  end.

Definition LF : N := 10%N.
Definition COLON : N := 58%N.
Definition SLASH : N := 47%N.
Definition SPACE : N := 32%N.

Definition in_ranges (c : N) (rs : list (N * N)) : bool :=
  existsb (fun r => (fst r <=? c)%N && (c <=? snd r)%N) rs.

(** Whitespace as [str.strip] and the pattern's [\s] see it (both use the
    interpreter's Unicode whitespace property). *)
Definition space_ranges : list (N * N) :=
  [(9, 13); (28, 32); (133, 133); (160, 160); (5760, 5760); (8192, 8202);
   (8232, 8233); (8239, 8239); (8287, 8287); (12288, 12288)]%N.

Definition is_space (c : N) : bool := in_ranges c space_ranges.

(** Word characters, the pattern's [\w] on a [str]: the underscore and every
    code point that is alphanumeric in the Unicode database (version 14.0,
    the one of CPython 3.11), as inclusive ranges. *)
Definition word_ranges : list (N * N) :=
  [
    (48, 57); (65, 90); (95, 95); (97, 122); (170, 170); (178, 179); (181, 181); (185, 186);
    (188, 190); (192, 214); (216, 246); (248, 705); (710, 721); (736, 740); (748, 748);
    (750, 750); (880, 884); (886, 887); (890, 893); (895, 895); (902, 902); (904, 906);
    (908, 908); (910, 929); (931, 1013); (1015, 1153); (1162, 1327); (1329, 1366); (1369, 1369);
    (1376, 1416); (1488, 1514); (1519, 1522); (1568, 1610); (1632, 1641); (1646, 1647);
    (1649, 1747); (1749, 1749); (1765, 1766); (1774, 1788); (1791, 1791); (1808, 1808);
    (1810, 1839); (1869, 1957); (1969, 1969); (1984, 2026); (2036, 2037); (2042, 2042);
    (2048, 2069); (2074, 2074); (2084, 2084); (2088, 2088); (2112, 2136); (2144, 2154);
    (2160, 2183); (2185, 2190); (2208, 2249); (2308, 2361); (2365, 2365); (2384, 2384);
    (2392, 2401); (2406, 2415); (2417, 2432); (2437, 2444); (2447, 2448); (2451, 2472);
    (2474, 2480); (2482, 2482); (2486, 2489); (2493, 2493); (2510, 2510); (2524, 2525);
    (2527, 2529); (2534, 2545); (2548, 2553); (2556, 2556); (2565, 2570); (2575, 2576);
    (2579, 2600); (2602, 2608); (2610, 2611); (2613, 2614); (2616, 2617); (2649, 2652);
    (2654, 2654); (2662, 2671); (2674, 2676); (2693, 2701); (2703, 2705); (2707, 2728);
    (2730, 2736); (2738, 2739); (2741, 2745); (2749, 2749); (2768, 2768); (2784, 2785);
    (2790, 2799); (2809, 2809); (2821, 2828); (2831, 2832); (2835, 2856); (2858, 2864);
    (2866, 2867); (2869, 2873); (2877, 2877); (2908, 2909); (2911, 2913); (2918, 2927);
    (2929, 2935); (2947, 2947); (2949, 2954); (2958, 2960); (2962, 2965); (2969, 2970);
    (2972, 2972); (2974, 2975); (2979, 2980); (2984, 2986); (2990, 3001); (3024, 3024);
    (3046, 3058); (3077, 3084); (3086, 3088); (3090, 3112); (3114, 3129); (3133, 3133);
    (3160, 3162); (3165, 3165); (3168, 3169); (3174, 3183); (3192, 3198); (3200, 3200);
    (3205, 3212); (3214, 3216); (3218, 3240); (3242, 3251); (3253, 3257); (3261, 3261);
    (3293, 3294); (3296, 3297); (3302, 3311); (3313, 3314); (3332, 3340); (3342, 3344);
    (3346, 3386); (3389, 3389); (3406, 3406); (3412, 3414); (3416, 3425); (3430, 3448);
    (3450, 3455); (3461, 3478); (3482, 3505); (3507, 3515); (3517, 3517); (3520, 3526);
    (3558, 3567); (3585, 3632); (3634, 3635); (3648, 3654); (3664, 3673); (3713, 3714);
    (3716, 3716); (3718, 3722); (3724, 3747); (3749, 3749); (3751, 3760); (3762, 3763);
    (3773, 3773); (3776, 3780); (3782, 3782); (3792, 3801); (3804, 3807); (3840, 3840);
    (3872, 3891); (3904, 3911); (3913, 3948); (3976, 3980); (4096, 4138); (4159, 4169);
    (4176, 4181); (4186, 4189); (4193, 4193); (4197, 4198); (4206, 4208); (4213, 4225);
    (4238, 4238); (4240, 4249); (4256, 4293); (4295, 4295); (4301, 4301); (4304, 4346);
    (4348, 4680); (4682, 4685); (4688, 4694); (4696, 4696); (4698, 4701); (4704, 4744);
    (4746, 4749); (4752, 4784); (4786, 4789); (4792, 4798); (4800, 4800); (4802, 4805);
    (4808, 4822); (4824, 4880); (4882, 4885); (4888, 4954); (4969, 4988); (4992, 5007);
    (5024, 5109); (5112, 5117); (5121, 5740); (5743, 5759); (5761, 5786); (5792, 5866);
    (5870, 5880); (5888, 5905); (5919, 5937); (5952, 5969); (5984, 5996); (5998, 6000);
    (6016, 6067); (6103, 6103); (6108, 6108); (6112, 6121); (6128, 6137); (6160, 6169);
    (6176, 6264); (6272, 6276); (6279, 6312); (6314, 6314); (6320, 6389); (6400, 6430);
    (6470, 6509); (6512, 6516); (6528, 6571); (6576, 6601); (6608, 6618); (6656, 6678);
    (6688, 6740); (6784, 6793); (6800, 6809); (6823, 6823); (6917, 6963); (6981, 6988);
    (6992, 7001); (7043, 7072); (7086, 7141); (7168, 7203); (7232, 7241); (7245, 7293);
    (7296, 7304); (7312, 7354); (7357, 7359); (7401, 7404); (7406, 7411); (7413, 7414);
    (7418, 7418); (7424, 7615); (7680, 7957); (7960, 7965); (7968, 8005); (8008, 8013);
    (8016, 8023); (8025, 8025); (8027, 8027); (8029, 8029); (8031, 8061); (8064, 8116);
    (8118, 8124); (8126, 8126); (8130, 8132); (8134, 8140); (8144, 8147); (8150, 8155);
    (8160, 8172); (8178, 8180); (8182, 8188); (8304, 8305); (8308, 8313); (8319, 8329);
    (8336, 8348); (8450, 8450); (8455, 8455); (8458, 8467); (8469, 8469); (8473, 8477);
    (8484, 8484); (8486, 8486); (8488, 8488); (8490, 8493); (8495, 8505); (8508, 8511);
    (8517, 8521); (8526, 8526); (8528, 8585); (9312, 9371); (9450, 9471); (10102, 10131);
    (11264, 11492); (11499, 11502); (11506, 11507); (11517, 11517); (11520, 11557);
    (11559, 11559); (11565, 11565); (11568, 11623); (11631, 11631); (11648, 11670);
    (11680, 11686); (11688, 11694); (11696, 11702); (11704, 11710); (11712, 11718);
    (11720, 11726); (11728, 11734); (11736, 11742); (11823, 11823); (12293, 12295);
    (12321, 12329); (12337, 12341); (12344, 12348); (12353, 12438); (12445, 12447);
    (12449, 12538); (12540, 12543); (12549, 12591); (12593, 12686); (12690, 12693);
    (12704, 12735); (12784, 12799); (12832, 12841); (12872, 12879); (12881, 12895);
    (12928, 12937); (12977, 12991); (13312, 19903); (19968, 42124); (42192, 42237);
    (42240, 42508); (42512, 42539); (42560, 42606); (42623, 42653); (42656, 42735);
    (42775, 42783); (42786, 42888); (42891, 42954); (42960, 42961); (42963, 42963);
    (42965, 42969); (42994, 43009); (43011, 43013); (43015, 43018); (43020, 43042);
    (43056, 43061); (43072, 43123); (43138, 43187); (43216, 43225); (43250, 43255);
    (43259, 43259); (43261, 43262); (43264, 43301); (43312, 43334); (43360, 43388);
    (43396, 43442); (43471, 43481); (43488, 43492); (43494, 43518); (43520, 43560);
    (43584, 43586); (43588, 43595); (43600, 43609); (43616, 43638); (43642, 43642);
    (43646, 43695); (43697, 43697); (43701, 43702); (43705, 43709); (43712, 43712);
    (43714, 43714); (43739, 43741); (43744, 43754); (43762, 43764); (43777, 43782);
    (43785, 43790); (43793, 43798); (43808, 43814); (43816, 43822); (43824, 43866);
    (43868, 43881); (43888, 44002); (44016, 44025); (44032, 55203); (55216, 55238);
    (55243, 55291); (63744, 64109); (64112, 64217); (64256, 64262); (64275, 64279);
    (64285, 64285); (64287, 64296); (64298, 64310); (64312, 64316); (64318, 64318);
    (64320, 64321); (64323, 64324); (64326, 64433); (64467, 64829); (64848, 64911);
    (64914, 64967); (65008, 65019); (65136, 65140); (65142, 65276); (65296, 65305);
    (65313, 65338); (65345, 65370); (65382, 65470); (65474, 65479); (65482, 65487);
    (65490, 65495); (65498, 65500); (65536, 65547); (65549, 65574); (65576, 65594);
    (65596, 65597); (65599, 65613); (65616, 65629); (65664, 65786); (65799, 65843);
    (65856, 65912); (65930, 65931); (66176, 66204); (66208, 66256); (66273, 66299);
    (66304, 66339); (66349, 66378); (66384, 66421); (66432, 66461); (66464, 66499);
    (66504, 66511); (66513, 66517); (66560, 66717); (66720, 66729); (66736, 66771);
    (66776, 66811); (66816, 66855); (66864, 66915); (66928, 66938); (66940, 66954);
    (66956, 66962); (66964, 66965); (66967, 66977); (66979, 66993); (66995, 67001);
    (67003, 67004); (67072, 67382); (67392, 67413); (67424, 67431); (67456, 67461);
    (67463, 67504); (67506, 67514); (67584, 67589); (67592, 67592); (67594, 67637);
    (67639, 67640); (67644, 67644); (67647, 67669); (67672, 67702); (67705, 67742);
    (67751, 67759); (67808, 67826); (67828, 67829); (67835, 67867); (67872, 67897);
    (67968, 68023); (68028, 68047); (68050, 68096); (68112, 68115); (68117, 68119);
    (68121, 68149); (68160, 68168); (68192, 68222); (68224, 68255); (68288, 68295);
    (68297, 68324); (68331, 68335); (68352, 68405); (68416, 68437); (68440, 68466);
    (68472, 68497); (68521, 68527); (68608, 68680); (68736, 68786); (68800, 68850);
    (68858, 68899); (68912, 68921); (69216, 69246); (69248, 69289); (69296, 69297);
    (69376, 69415); (69424, 69445); (69457, 69460); (69488, 69505); (69552, 69579);
    (69600, 69622); (69635, 69687); (69714, 69743); (69745, 69746); (69749, 69749);
    (69763, 69807); (69840, 69864); (69872, 69881); (69891, 69926); (69942, 69951);
    (69956, 69956); (69959, 69959); (69968, 70002); (70006, 70006); (70019, 70066);
    (70081, 70084); (70096, 70106); (70108, 70108); (70113, 70132); (70144, 70161);
    (70163, 70187); (70272, 70278); (70280, 70280); (70282, 70285); (70287, 70301);
    (70303, 70312); (70320, 70366); (70384, 70393); (70405, 70412); (70415, 70416);
    (70419, 70440); (70442, 70448); (70450, 70451); (70453, 70457); (70461, 70461);
    (70480, 70480); (70493, 70497); (70656, 70708); (70727, 70730); (70736, 70745);
    (70751, 70753); (70784, 70831); (70852, 70853); (70855, 70855); (70864, 70873);
    (71040, 71086); (71128, 71131); (71168, 71215); (71236, 71236); (71248, 71257);
    (71296, 71338); (71352, 71352); (71360, 71369); (71424, 71450); (71472, 71483);
    (71488, 71494); (71680, 71723); (71840, 71922); (71935, 71942); (71945, 71945);
    (71948, 71955); (71957, 71958); (71960, 71983); (71999, 71999); (72001, 72001);
    (72016, 72025); (72096, 72103); (72106, 72144); (72161, 72161); (72163, 72163);
    (72192, 72192); (72203, 72242); (72250, 72250); (72272, 72272); (72284, 72329);
    (72349, 72349); (72368, 72440); (72704, 72712); (72714, 72750); (72768, 72768);
    (72784, 72812); (72818, 72847); (72960, 72966); (72968, 72969); (72971, 73008);
    (73030, 73030); (73040, 73049); (73056, 73061); (73063, 73064); (73066, 73097);
    (73112, 73112); (73120, 73129); (73440, 73458); (73648, 73648); (73664, 73684);
    (73728, 74649); (74752, 74862); (74880, 75075); (77712, 77808); (77824, 78894);
    (82944, 83526); (92160, 92728); (92736, 92766); (92768, 92777); (92784, 92862);
    (92864, 92873); (92880, 92909); (92928, 92975); (92992, 92995); (93008, 93017);
    (93019, 93025); (93027, 93047); (93053, 93071); (93760, 93846); (93952, 94026);
    (94032, 94032); (94099, 94111); (94176, 94177); (94179, 94179); (94208, 100343);
    (100352, 101589); (101632, 101640); (110576, 110579); (110581, 110587); (110589, 110590);
    (110592, 110882); (110928, 110930); (110948, 110951); (110960, 111355); (113664, 113770);
    (113776, 113788); (113792, 113800); (113808, 113817); (119520, 119539); (119648, 119672);
    (119808, 119892); (119894, 119964); (119966, 119967); (119970, 119970); (119973, 119974);
    (119977, 119980); (119982, 119993); (119995, 119995); (119997, 120003); (120005, 120069);
    (120071, 120074); (120077, 120084); (120086, 120092); (120094, 120121); (120123, 120126);
    (120128, 120132); (120134, 120134); (120138, 120144); (120146, 120485); (120488, 120512);
    (120514, 120538); (120540, 120570); (120572, 120596); (120598, 120628); (120630, 120654);
    (120656, 120686); (120688, 120712); (120714, 120744); (120746, 120770); (120772, 120779);
    (120782, 120831); (122624, 122654); (123136, 123180); (123191, 123197); (123200, 123209);
    (123214, 123214); (123536, 123565); (123584, 123627); (123632, 123641); (124896, 124902);
    (124904, 124907); (124909, 124910); (124912, 124926); (124928, 125124); (125127, 125135);
    (125184, 125251); (125259, 125259); (125264, 125273); (126065, 126123); (126125, 126127);
    (126129, 126132); (126209, 126253); (126255, 126269); (126464, 126467); (126469, 126495);
    (126497, 126498); (126500, 126500); (126503, 126503); (126505, 126514); (126516, 126519);
    (126521, 126521); (126523, 126523); (126530, 126530); (126535, 126535); (126537, 126537);
    (126539, 126539); (126541, 126543); (126545, 126546); (126548, 126548); (126551, 126551);
    (126553, 126553); (126555, 126555); (126557, 126557); (126559, 126559); (126561, 126562);
    (126564, 126564); (126567, 126570); (126572, 126578); (126580, 126583); (126585, 126588);
    (126590, 126590); (126592, 126601); (126603, 126619); (126625, 126627); (126629, 126633);
    (126635, 126651); (127232, 127244); (130032, 130041); (131072, 173791); (173824, 177976);
    (177984, 178205); (178208, 183969); (183984, 191456); (194560, 195101); (196608, 201546)
  ]%N.

Definition is_word (c : N) : bool := in_ranges c word_ranges.

(** [str.strip()] *)
Fixpoint lstrip (s : text) : text :=
  match s with
  | c :: r => if is_space c then lstrip r else s
  | [] => []
  end.

Definition rstrip (s : text) : text := rev (lstrip (rev s)).

Definition strip (s : text) : text := rstrip (lstrip s).

(** [sep.join(parts)] *)
Fixpoint join (sep : text) (parts : list text) : text :=
  match parts with
  | [] => []
  | [p] => p
  | p :: rest => p ++ sep ++ join sep rest
  end.

(** ** Insertion-ordered dictionaries *)

Module Dict.
Section WithValue.
Context {V : Type}.

Definition t := list (text * V).

Definition empty : t := [].

Fixpoint get (k : text) (d : t) : option V :=
    match d with
    | [] => None
    | (k', v) :: r => if text_eqb k k' then Some v else get k r
    end.

  (** [k in d] *)
Definition mem (k : text) (d : t) : bool :=
    match get k d with Some _ => true | None => false end.

  (** [d[k] = v]: an existing key keeps its position, a new key goes last. *)
Fixpoint set (k : text) (v : V) (d : t) : t :=
    match d with
    | [] => [(k, v)]
    | (k', v') :: r =>
        if text_eqb k k' then (k', v) :: r else (k', v') :: set k v r
    end.

Definition keys (d : t) : list text := map fst d.

  (** A dict display [{k1: v1, k2: v2, ...}]: the pairs are stored left to
      right, a repeated key overwriting the value stored before. *)
Definition of_pairs (l : list (text * V)) : t :=
    fold_left (fun d kv => set (fst kv) (snd kv) d) l empty.

  (** The value of the last pair of a display that has the key [k]. *)
Fixpoint last_entry (k : text) (l : list (text * V)) : option V :=
    match l with
    | [] => None
    | (k', v) :: r =>
        match last_entry k r with
        | Some x => Some x
        | None => if text_eqb k k' then Some v else None
        end
    end.
End WithValue.
Arguments t : clear implicits.
End Dict.

(** ** The token registry *)

(** The display of [CORE_TOKENS], entry by entry in source order. *)
Definition CORE_TOKENS_display : list (text * text) :=
  [
    (* Core tokens *)
    (U "🚀", U "/act"); (U "📚", U "/focus"); (U "🧠", U "/mind"); (U "🎯", U "/context");
    (U "💡", U "/intent"); (U "📦", U "/deliverable"); (U "⏰", U "/timeline");
    (U "🔥", U "/pulse"); (U "🏔️", U "/gliph"); (U "🔗", U "/relation"); (U "🌐", U "/network");
    (U "🔄", U "/compose"); (U "🔍", U "/zoom"); (U "🎛️", U "/switch_context");
    (U "⛓️", U "/chain"); (U "📢", U "/echo"); (U "🔧", U "/resolve"); (U "📝", U "/note");
    (U "📊", U "/metric"); (U "📡", U "/channel"); (U "👥", U "/collective"); (U "🎭", U "/role");
    (* Extended tokens *)
    (U "🏛️", U "/govern"); (U "📋", U "/norm"); (U "💰", U "/resource"); (U "🤝", U "/trust");
    (U "🎯", U "/goal"); (U "⚡", U "/trigger"); (U "🎨", U "/palette"); (U "👤", U "/character");
    (U "🌍", U "/setting"); (U "📖", U "/lore"); (U "🎲", U "/turn"); (U "🌱", U "/seed");
    (U "🎵", U "/motif"); (U "🏗️", U "/structure"); (U "👁️", U "/pov"); (U "✨", U "/flourish");
    (* Research & meta tokens *)
    (U "❓", U "/query"); (U "🔄", U "/ongoing"); (U "🌉", U "/bridge"); (U "⚖️", U "/dialectic");
    (U "🧠🧠", U "/meta"); (U "📄", U "/source"); (U "🔄", U "/transform"); (U "🔍", U "/introspect")
  ].

Definition CORE_TOKENS : Dict.t text := Dict.of_pairs CORE_TOKENS_display.

(** [{v: k for k, v in CORE_TOKENS.items()}] *)
Definition SLASH_TO_EMOJI : Dict.t text :=
  fold_left (fun d kv => Dict.set (snd kv) (fst kv) d) CORE_TOKENS Dict.empty.

(** [CORE_TOKENS.get(token_raw, token_raw)] *)
Definition resolve_to_canonical (token_raw : text) : text :=
  match Dict.get token_raw CORE_TOKENS with
  | Some canonical => canonical
  | None => token_raw
  end.

(** [SLASH_TO_EMOJI[token]] when [token in SLASH_TO_EMOJI] *)
Definition resolve_to_symbol (canonical : text) : option text :=
  Dict.get canonical SLASH_TO_EMOJI.

(** ** The token pattern

    [([glyphs]|/\w+):\s*(.+?)(?=\n[glyphs]|/\w+:|$)] compiled with
    [re.DOTALL | re.MULTILINE]. *)

(** The bracketed class, the same in the group and in the lookahead.  A
    class holds code points, so a symbol written with a variation selector
    contributes its two code points separately. *)
Definition glyph_class : text := Eval vm_compute in
  U "🚀📚🧠🎯💡📦⏰🔥🏔️🔗🌐🔄🔍🎛️⛓️📢🔧📝📊📡👥🎭🏛️📋💰🤝⚡🎨👤🌍📖🎲🌱🎵🏗️👁️✨❓🌉⚖️📄".

Definition is_glyph (c : N) : bool := existsb (N.eqb c) glyph_class.

(** [\w+], the longest run first. *)
Fixpoint word_run (s : text) : text * text :=
  match s with
  | c :: r =>
      if is_word c then let (w, rest) := word_run r in (c :: w, rest)
      else ([], s)
  | [] => ([], [])
  end.

(** [/\w+:] at the head of [s].  Only the longest run can be followed by
    the colon: a shorter one is followed by a word character. *)
Definition slash_word_colon (s : text) : bool :=
  match s with
  | c :: r =>
      (c =? SLASH)%N &&
      match word_run r with
      | (_ :: _, c' :: _) => (c' =? COLON)%N
      | _ => false
      end
  | [] => false
  end.

(** The lookahead [(?=\n[glyphs]|/\w+:|$)]; under [re.MULTILINE] the
    dollar holds at the end of the text and before every line feed. *)
Definition lookahead (s : text) : bool :=
  match s with
  | [] => true
  | c :: r =>
      ((c =? LF)%N && match r with g :: _ => is_glyph g | [] => false end)
      || slash_word_colon s
      || (c =? LF)%N
  end.

(** The first group [([glyphs]|/\w+)]: the token and what follows it.  The
    slash is not in the class, so the two alternatives exclude each other. *)
Definition group1 (s : text) : option (text * text) :=
  match s with
  | c :: r =>
      if is_glyph c then Some ([c], r)
      else if (c =? SLASH)%N then
        match word_run r with
        | ((_ :: _) as w, rest) => Some (c :: w, rest)
        | _ => None
        end
      else None
  | [] => None
  end.

(** The second and later characters of the lazy [.+?]: under [re.DOTALL]
    any character is taken, one at a time, until the lookahead holds. *)
Fixpoint lazy_dots (s : text) : text * text :=
  match s with
  | [] => ([], [])
  | c :: r =>
      if lookahead s then ([], s)
      else let (v, rest) := lazy_dots r in (c :: v, rest)
  end.

(** The second group [(.+?)] with its lookahead: at least one character. *)
Definition group2 (s : text) : option (text * text) :=
  match s with
  | [] => None
  | c :: r => let (v, rest) := lazy_dots r in Some (c :: v, rest)
  end.

(** [\s*(.+?)]: the greedy star takes whitespace while the rest of the
    pattern still matches, and gives a character back when it does not. *)
Fixpoint spaces_group2 (s : text) : option (text * text) :=
  match s with
  | c :: r =>
      if is_space c then
        match spaces_group2 r with
        | Some m => Some m
        | None => group2 s
        end
      else group2 s
  | [] => None
  end.

(** One match attempt at the head of [s]: both groups and the unread rest. *)
Definition match_here (s : text) : option (text * text * text) :=
  match group1 s with
  | Some (tok, c :: r) =>
      if (c =? COLON)%N then
        match spaces_group2 r with
        | Some (v, rest) => Some (tok, v, rest)
        | None => None
        end
      else None
  | _ => None
  end.

(** [token_pattern.findall(text)]: attempts are made left to right, and
    after a match the scan resumes where the match ended ([skip] counts the
    code points of the current match still to be passed). *)
Fixpoint scan (skip : nat) (s : text) : list (text * text) :=
  match s with
  | [] => []
  | _ :: r =>
      match skip with
      | S k => scan k r
      | O =>
          match match_here s with
          | Some (tok, v, rest) =>
              (tok, v) :: scan (List.length r - List.length rest) r
          | None => scan 0 r
          end
      end
  end.

Definition findall (s : text) : list (text * text) := scan 0 s.

(** ** Messages *)

Inductive AgentType := HUMAN | GPT | CLAUDE.

Record NeuroGlyphMessage := {
  timestamp : text;
  agent : text;
  agent_type : AgentType;
  tokens : Dict.t text;
  raw_text : text;
  is_valid : bool;
  validation_errors : list text
}.

(** The dataclass constructor: an omitted [is_valid] is [True], an omitted
    [validation_errors] is [None], which [__post_init__] replaces by []. *)
Definition NeuroGlyphMessage_init (timestamp agent : text)
    (agent_type : AgentType) (tokens : Dict.t text) (raw_text : text)
    (is_valid : option bool) (validation_errors : option (list text))
    : NeuroGlyphMessage :=
  {| timestamp := timestamp;
     agent := agent;
     agent_type := agent_type;
     tokens := tokens;
     raw_text := raw_text;
     is_valid := match is_valid with Some b => b | None => true end;
     validation_errors :=
       match validation_errors with Some l => l | None => [] end |}.

(** ** NeuroGlyphParser *)

Definition ERR_INTENT : text := U "Action requires /intent declaration".
Definition ERR_CONTEXT : text := U "Action requires /context declaration".
Definition WARN_DELIVERABLE : text :=
  U "Interactive tokens should specify expected /deliverable".

(** [validate_message(tokens, errors)]: the list it appends to is threaded
    through; the result is the flag and the list afterwards. *)
Definition validate_message (tokens : Dict.t text) (errors : list text)
    : bool * list text :=
  let is_valid := true in
  let '(is_valid, errors) :=
    if Dict.mem (U "/act") tokens then
      let '(is_valid, errors) :=
        if negb (Dict.mem (U "/intent") tokens)
        then (false, errors ++ [ERR_INTENT]) else (is_valid, errors) in
      if negb (Dict.mem (U "/context") tokens)
      then (false, errors ++ [ERR_CONTEXT]) else (is_valid, errors)
    else (is_valid, errors) in
  let errors :=
    if existsb (fun token => Dict.mem token tokens)
         [U "/act"; U "/query"; U "/resolve"]
    then if negb (Dict.mem (U "/deliverable") tokens)
         then errors ++ [WARN_DELIVERABLE] else errors
    else errors in
  (is_valid, errors).

(** The loop of [parse_message] over the matches. *)
Definition collect_tokens (matches : list (text * text)) : Dict.t text :=
  fold_left
    (fun tokens m => Dict.set (resolve_to_canonical (fst m)) (strip (snd m)) tokens)
    matches Dict.empty.

Definition tokenize (s : text) : Dict.t text := collect_tokens (findall s).

(** [parse_message(text, agent, agent_type)]; [now] is the clock reading. *)
Definition parse_message (now : text) (s agent : text) (agent_type : AgentType)
    : NeuroGlyphMessage :=
  let tokens := tokenize s in
  let '(is_valid, validation_errors) := validate_message tokens [] in
  NeuroGlyphMessage_init now agent agent_type tokens s
    (Some is_valid) (Some validation_errors).

(** [format_message(tokens, use_emojis)] *)
Definition display_token (use_emojis : bool) (token : text) : text :=
  if use_emojis then
    match resolve_to_symbol token with
    | Some symbol => symbol
    | None => token
    end
  else token.

Definition format_line (use_emojis : bool) (kv : text * text) : text :=
  display_token use_emojis (fst kv) ++ [COLON; SPACE] ++ snd kv.

Definition format_message (tokens : Dict.t text) (use_emojis : bool) : text :=
  join [LF] (map (format_line use_emojis) tokens).

(** ** ConversationEngine *)

Record Engine := {
  conversation_history : list NeuroGlyphMessage;
  active_context : Dict.t text
}.

(** The engine as [__init__] leaves it. *)
Definition new_engine : Engine :=
  {| conversation_history := []; active_context := Dict.empty |}.

(** [a or b] on strings *)
Definition str_or (a b : text) : text :=
  match a with [] => b | _ => a end.

Definition init_tokens (topic : text) (participants : list text)
    (context intent : text) : Dict.t text :=
  Dict.of_pairs
    [ (U "/mind", join (U ", ") participants);
      (U "/focus", topic);
      (U "/context", str_or context (U "Multi-agent dialogue on " ++ topic));
      (U "/intent",
       str_or intent (U "Collaborative exploration and understanding"));
      (U "/deliverable", U "structured_dialogue");
      (U "/timeline", U "ongoing");
      (U "/channel", U "text_and_voice");
      (U "/norm", U "respectful_dialogue, ng_protocol_adherence");
      (U "/govern", U "consensus_seeking") ].

(** The message construction of [initialize_conversation], for any token
    mapping and agent: no flag and no error list are passed, and the raw
    text is the formatted mapping ([use_emojis] at its default). *)
Definition synthesize (now : text) (tokens : Dict.t text) (agent : text)
    (agent_type : AgentType) : NeuroGlyphMessage :=
  NeuroGlyphMessage_init now agent agent_type tokens
    (format_message tokens true) None None.

Definition initialize_conversation (now topic : text)
    (participants : list text) (context intent : text) (e : Engine)
    : NeuroGlyphMessage * Engine :=
  let toks := init_tokens topic participants context intent in
  let init_message := synthesize now toks (U "system") HUMAN in
  (init_message,
   {| conversation_history := conversation_history e ++ [init_message];
      active_context := toks |}).

(** The update of [active_context] at the end of [add_message]. *)
Definition update_active_context (ctx : Dict.t text) (message : NeuroGlyphMessage)
    : Dict.t text :=
  let ctx :=
    match Dict.get (U "/context") (tokens message) with
    | Some v => Dict.set (U "/context") v ctx
    | None => ctx
    end in
  match Dict.get (U "/focus") (tokens message) with
  | Some v => Dict.set (U "/focus") v ctx
  | None => ctx
  end.

Definition add_message (now : text) (s agent : text) (agent_type : AgentType)
    (e : Engine) : NeuroGlyphMessage * Engine :=
  let message := parse_message now s agent agent_type in
  (message,
   {| conversation_history := conversation_history e ++ [message];
      active_context := update_active_context (active_context e) message |}).


(** ** Conversations *)

(** The calls that change an engine's history and active context. *)
Inductive Call :=
  | Initialize (now topic : text) (participants : list text)
      (context intent : text)
  | AddMessage (now s agent : text) (agent_type : AgentType).

Definition step (e : Engine) (c : Call) : Engine :=
  match c with
  | Initialize now topic participants context intent =>
      snd (initialize_conversation now topic participants context intent e)
  | AddMessage now s agent agent_type =>
      snd (add_message now s agent agent_type e)
  end.

Definition run (calls : list Call) : Engine := fold_left step calls new_engine.

(** The token mapping written by the last [Initialize] among the calls. *)
Fixpoint last_initialization (calls : list Call) : option (Dict.t text) :=
  match calls with
  | [] => None
  | c :: later =>
      match last_initialization later with
      | Some toks => Some toks
      | None =>
          match c with
          | Initialize _ topic participants context intent =>
              Some (init_tokens topic participants context intent)
          | AddMessage _ _ _ _ => None
          end
      end
  end.

(** The value a key has in the last message of the history declaring it. *)
Fixpoint last_declared (k : text) (history : list NeuroGlyphMessage)
    : option text :=
  match history with
  | [] => None
  | m :: later =>
      match last_declared k later with
      | Some v => Some v
      | None => Dict.get k (tokens m)
      end
  end.

(** The keys [add_message] carries over, and those [initialize_conversation]
    writes. *)
Definition sticky_keys : list text := [U "/context"; U "/focus"].

Definition init_keys : list text :=
  [U "/mind"; U "/focus"; U "/context"; U "/intent"; U "/deliverable";
   U "/timeline"; U "/channel"; U "/norm"; U "/govern"].

(** ** Shapes of tokens and values *)

(** The pattern matches somewhere in the text. *)
Fixpoint has_match (s : text) : bool :=
  match s with
  | [] => false
  | _ :: r =>
      match match_here s with Some _ => true | None => has_match r end
  end.

(** A code point at which no match can start: not in the class, not a
    slash. *)
Definition inert (c : N) : bool := negb (is_glyph c) && negb (c =? SLASH)%N.

(** A run of word characters is read whole when what follows is not one. *)
Definition stops_word (r : text) : Prop :=
  match r with
  | [] => True
  | c :: _ => is_word c = false
  end.

(** What the first group can capture: one code point of the class, or a
    slash and a non-empty run of word characters. *)
Definition is_canonical (k : text) : bool :=
  match k with
  | c :: ((_ :: _) as w) => (c =? SLASH)%N && forallb is_word w
  | _ => false
  end.

Definition is_token (tok : text) : bool :=
  match tok with
  | [c] => is_glyph c
  | _ => is_canonical tok
  end.

(** No line feed and no [/word:] from any position of [s] on. *)
Fixpoint quiet (s : text) : bool :=
  match s with
  | [] => true
  | c :: r => negb (c =? LF)%N && negb (slash_word_colon s) && quiet r
  end.

(** A value that a formatted line hands back unchanged: non-empty, on one
    line, no whitespace at either end, no [/word:] after its first
    character. *)
Definition plain_value (v : text) : bool :=
  match v with
  | [] => false
  | c :: r => negb (is_space c) && negb (is_space (last v c)) && quiet r
  end.

(** No whitespace at either end. *)
Definition trimmed (x : text) : Prop := lstrip x = x /\ rstrip x = x.

(** What can follow a formatted line: the end of the text or a line feed. *)
Definition line_end (tail : text) : Prop :=
  tail = [] \/ exists t, tail = LF :: t.

(** The alternatives of the lookahead that end a value apart from the
    dollar: a line feed followed by a code point of the class, and
    [/word:]; and the end of the text. *)
Definition value_boundary (rest : text) : bool :=
  match rest with
  | [] => true
  | c :: r =>
      ((c =? LF)%N && match r with g :: _ => is_glyph g | [] => false end)
      || slash_word_colon rest
  end.

(** What may follow a value without joining a [/word:] begun inside it:
    nothing, or a code point that is neither a word character nor the
    colon. *)
Definition ends_value (tail : text) : Prop :=
  match tail with
  | [] => True
  | c :: _ => is_word c = false /\ c <> COLON
  end.

(** The token the pattern reads in a declaration of [tok]: the class holds
    single code points, so of a symbol of two code points only the second
    stands before the colon. *)
Definition read_token (tok : text) : text :=
  match tok with
  | [g; c] => if is_glyph g && is_glyph c then [c] else tok
  | _ => tok
  end.

(** The tokens a message can declare: a registered symbol, or a text of the
    shape the first group captures. *)
Definition declarable (tok : text) : bool :=
  Dict.mem tok CORE_TOKENS || is_token tok.

(** The symbol registered for a key, if any, is a single code point. *)
Definition short_symbol (k : text) : bool :=
  match resolve_to_symbol k with
  | Some [_] => true
  | Some _ => false
  | None => true
  end.

Fixpoint distinct (ks : list text) : bool :=
  match ks with
  | [] => true
  | k :: r => negb (existsb (text_eqb k) r) && distinct r
  end.

(** ** The tokenizer in the specification's words *)

Module Spec.

(** A canonical identifier has the shape [/[A-Za-z_]+]. *)
Definition is_ident_char (c : N) : bool :=
  in_ranges c [(65, 90); (97, 122); (95, 95)]%N.

Fixpoint ident_run (s : text) : text * text :=
  match s with
  | c :: r =>
      if is_ident_char c then let (w, rest) := ident_run r in (c :: w, rest)
      else ([], s)
  | [] => ([], [])
  end.

Fixpoint strip_prefix (p s : text) : option text :=
  match p, s with
  | [], _ => Some s
  | x :: p', y :: s' => if (x =? y)%N then strip_prefix p' s' else None
  | _ :: _, [] => None
  end.

(** A line starts a segment when it begins with a registered symbol or a
    canonical identifier, followed by the colon; the whitespace after the
    colon goes with the value and is trimmed with it. *)
Definition symbol_start (line : text) : option (text * text) :=
  fold_right
    (fun sym found =>
       match strip_prefix (sym ++ [COLON]) line with
       | Some rest => Some (sym, rest)
       | None => found
       end)
    None (Dict.keys CORE_TOKENS).

Definition ident_start (line : text) : option (text * text) :=
  match line with
  | c :: r =>
      if (c =? SLASH)%N then
        match ident_run r with
        | ((_ :: _) as w, c' :: rest) =>
            if (c' =? COLON)%N then Some (c :: w, rest) else None
        | _ => None
        end
      else None
  | [] => None
  end.

Definition segment_start (line : text) : option (text * text) :=
  match symbol_start line with
  | Some x => Some x
  | None => ident_start line
  end.

Fixpoint split_lines (s : text) : list text :=
  match s with
  | [] => [[]]
  | c :: r =>
      if (c =? LF)%N then [] :: split_lines r
      else match split_lines r with
           | l :: ls => (c :: l) :: ls
           | [] => [[c]]
           end
  end.

Definition close (cur : option (text * list text)) : list (text * text) :=
  match cur with
  | Some (tok, ls) => [(tok, strip (join [LF] (rev ls)))]
  | None => []
  end.

(** Second pass: a segment runs up to the next line that starts one, or to
    the end of the text; lines before the first segment are dropped. *)
Fixpoint segments (cur : option (text * list text)) (lines : list text)
    : list (text * text) :=
  match lines with
  | [] => close cur
  | l :: rest =>
      match segment_start l with
      | Some (tok, v0) => close cur ++ segments (Some (tok, [v0])) rest
      | None =>
          match cur with
          | Some (tok, ls) => segments (Some (tok, l :: ls)) rest
          | None => segments None rest
          end
      end
  end.

Definition tokenize (s : text) : Dict.t text :=
  fold_left
    (fun d m => Dict.set (resolve_to_canonical (fst m)) (snd m) d)
    (segments None (split_lines s)) Dict.empty.

(** No line of the value starts a segment. *)
Definition segment_free (v : text) : bool :=
  forallb
    (fun l => match segment_start l with Some _ => false | None => true end)
    (split_lines v).

End Spec.

(** ** The rest of ConversationEngine *)

(** [d.get(k, default)] *)
Definition get_default (k default : text) (d : Dict.t text) : text :=
  match Dict.get k d with
  | Some v => v
  | None => default
  end.

(** [l[-3:]] *)
Definition last_three {A : Type} (l : list A) : list A :=
  skipn (List.length l - 3) l.

(** The list [get_conversation_context] joins: seven opening lines, one
    line for each recent message, nine closing lines. *)
Definition context_parts (context focus mind : text)
    (recent : list NeuroGlyphMessage) : list text :=
  [ U "You are participating in a NeuroGlyph conversation. ";
    U "NeuroGlyph is a structured protocol for human-AI dialogue.";
    U "Active context: " ++ context;
    U "Current focus: " ++ focus;
    U "Participants: " ++ mind;
    [];
    U "Recent conversation history:" ]
  ++ map (fun msg => U "[" ++ agent msg ++ U "]: " ++ raw_text msg) recent
  ++ [ [];
       U "Please respond using NeuroGlyph protocol. Include appropriate tokens like:";
       U "/mind: your_agent_name";
       U "/focus: main_topic_or_concept";
       U "/intent: your_purpose_in_responding";
       U "/deliverable: what_you_aim_to_provide";
       U "And your actual response content.";
       [];
       U "Be conversational but maintain the structured format." ].

Definition get_conversation_context (e : Engine) : text :=
  join [LF]
    (context_parts
       (get_default (U "/context") (U "General dialogue") (active_context e))
       (get_default (U "/focus") (U "Open discussion") (active_context e))
       (get_default (U "/mind") (U "Unknown") (active_context e))
       (last_three (conversation_history e))).

(** What a call to a model service comes back with.  The reply's content
    is a text or, for a reply without text, [None].  A raise is either an
    instance of [Exception], which the handlers of [get_gpt_response] and
    [get_claude_response] catch, or another [BaseException]
    ([asyncio.CancelledError], [KeyboardInterrupt]), which they do not. *)
Inductive ApiOutcome :=
  | Returned (content : text)
  | Raised (message : text)
  | ReturnedNone
  | Escaped (message : text).

(** What [get_gpt_response] and [get_claude_response] hand back: a text,
    [None], or the exception that passes through them. *)
Inductive Response :=
  | Text (s : text)
  | NoText
  | Propagates (message : text).

(** [get_gpt_response(prompt)]; [api] stands for the chat-completion call,
    given the system content and the user content. *)
Definition get_gpt_response (api : text -> text -> ApiOutcome) (e : Engine)
    (prompt : text) : Response :=
  match api (get_conversation_context e) prompt with
  | Returned content => Text content
  | ReturnedNone => NoText
  | Raised message => Text (U "GPT Error: " ++ message)
  | Escaped message => Propagates message
  end.

(** [get_claude_response(prompt)]; [api] is given the one user content. *)
Definition get_claude_response (api : text -> ApiOutcome) (e : Engine)
    (prompt : text) : Response :=
  match api (get_conversation_context e ++ [LF; LF]
             ++ U "Human message: " ++ prompt) with
  | Returned content => Text content
  | ReturnedNone => NoText
  | Raised message => Text (U "Claude Error: " ++ message)
  | Escaped message => Propagates message
  end.

(** The message of the [TypeError] that [token_pattern.findall] raises when
    [parse_message] is given [None] (wording of CPython 3.11). *)
Definition FINDALL_TYPE_ERROR : text :=
  U "expected string or bytes-like object, got 'NoneType'".

(** [add_message(response, agent_name, agent_type)] on what a service
    handed back: parsing comes first, so a response that is no text raises
    before anything is appended, and an exception on its way through never
    reaches [add_message].  The left result is the exception's message. *)
Definition add_response (now : text) (response : Response) (agent_name : text)
    (agent_type : AgentType) (e : Engine)
    : (text + NeuroGlyphMessage) * Engine :=
  match response with
  | Text s =>
      let (m, e') := add_message now s agent_name agent_type e in (inr m, e')
  | NoText => (inl FINDALL_TYPE_ERROR, e)
  | Propagates message => (inl message, e)
  end.

(** [process_agent_turn(agent_type, prompt)]: the left result is the message
    of the exception the call ends with, the [ValueError] for an agent type
    that is no model among them. *)
Definition process_agent_turn (gpt : text -> text -> ApiOutcome)
    (claude : text -> ApiOutcome) (now : text) (agent_type : AgentType)
    (prompt : text) (e : Engine) : (text + NeuroGlyphMessage) * Engine :=
  match agent_type with
  | GPT =>
      add_response now (get_gpt_response gpt e prompt) (U "GPT-4")
        agent_type e
  | CLAUDE =>
      add_response now (get_claude_response claude e prompt) (U "Claude")
        agent_type e
  | HUMAN =>
      (inl (U "Invalid agent type for processing: AgentType.HUMAN"), e)
  end.

(** A conversation with model turns among the calls. *)
Inductive Turn :=
  | Direct (c : Call)
  | AgentTurn (now : text) (agent_type : AgentType) (prompt : text).

Definition turn_step (gpt : text -> text -> ApiOutcome)
    (claude : text -> ApiOutcome) (e : Engine) (t : Turn) : Engine :=
  match t with
  | Direct c => step e c
  | AgentTurn now agent_type prompt =>
      snd (process_agent_turn gpt claude now agent_type prompt e)
  end.

Definition drive (gpt : text -> text -> ApiOutcome)
    (claude : text -> ApiOutcome) (turns : list Turn) : Engine :=
  fold_left (turn_step gpt claude) turns new_engine.

(** Whether a turn, taken in the state [e], appends a message. *)
Definition turn_adds (gpt : text -> text -> ApiOutcome)
    (claude : text -> ApiOutcome) (e : Engine) (t : Turn) : bool :=
  match t with
  | Direct _ => true
  | AgentTurn now agent_type prompt =>
      match fst (process_agent_turn gpt claude now agent_type prompt e) with
      | inr _ => true
      | inl _ => false
      end
  end.

(** The number of turns of a conversation continued from [e] that append a
    message. *)
Fixpoint added_count (gpt : text -> text -> ApiOutcome)
    (claude : text -> ApiOutcome) (e : Engine) (turns : list Turn) : nat :=
  match turns with
  | [] => 0
  | t :: later =>
      (if turn_adds gpt claude e t then 1 else 0)
      + added_count gpt claude (turn_step gpt claude e t) later
  end.

Definition is_initialize (t : Turn) : bool :=
  match t with
  | Direct (Initialize _ _ _ _ _) => true
  | _ => false
  end.

(** ** speak_text *)

(** [s.split(sep)] for a one-character separator *)
Fixpoint split_on (sep : N) (s : text) : list text :=
  match s with
  | [] => [[]]
  | c :: r =>
      if (c =? sep)%N then [] :: split_on sep r
      else match split_on sep r with
           | l :: ls => (c :: l) :: ls
           | [] => [[c]]
           end
  end.

(** [sep in s] *)
Definition contains (sep : N) (s : text) : bool := existsb (N.eqb sep) s.

(** [s.split(sep, 1)] when the separator occurs: what is before its first
    occurrence and what is after. *)
Fixpoint split_once (sep : N) (s : text) : text * text :=
  match s with
  | [] => ([], [])
  | c :: r =>
      if (c =? sep)%N then ([], r)
      else let (a, b) := split_once sep r in (c :: a, b)
  end.

(** The tokens whose lines are not read out. *)
Definition UNSPOKEN_TOKENS : list text :=
  [U "/mind"; U "/context"; U "/intent"; U "/deliverable";
   U "/timeline"; U "/channel"; U "/norm"; U "/govern"].

Definition unspoken (token : text) : bool :=
  existsb (text_eqb (strip token)) UNSPOKEN_TOKENS.

(** What one line adds to [content_parts]. *)
Definition line_content (line : text) : list text :=
  if contains COLON line then
    let (token, value) := split_once COLON line in
    if unspoken token then [] else [strip value]
  else [line].

Definition speech_text (s : text) : text :=
  strip (join [SPACE] (flat_map line_content (split_on LF s))).

(** [speak_text(text)]: the text handed to the speech engine, if any. *)
Definition speak_text (s : text) : option text :=
  match speech_text s with
  | [] => None
  | spoken => Some spoken
  end.

(** ** Auxiliary notions for the properties below *)

(** The two diagnostics that make a message invalid. *)
Definition is_error (diagnostic : text) : bool :=
  text_eqb diagnostic ERR_INTENT || text_eqb diagnostic ERR_CONTEXT.

(** A mapping with the key [k] renamed to [k'], in place. *)
Definition rename_key (k k' : text) (d : Dict.t text) : Dict.t text :=
  map (fun kv => if text_eqb (fst kv) k then (k', snd kv) else kv) d.

(** * Properties *)

(** ** Texts and dictionaries *)

Lemma text_eqb_eq (a b : text) : text_eqb a b = true <-> a = b.
Proof.
  revert b; induction a as [|x a IH]; intros [|y b]; simpl;
    try (split; [discriminate | discriminate]); try tauto.
  rewrite andb_true_iff, N.eqb_eq, IH.
  split; [intros [-> ->]; reflexivity | intros H; inversion H; auto].
Qed.

Lemma text_eqb_refl (a : text) : text_eqb a a = true.
Proof. apply text_eqb_eq; reflexivity. Qed.

Lemma text_eqb_neq (a b : text) : a <> b -> text_eqb a b = false.
Proof.
  intros H; destruct (text_eqb a b) eqn:E; [|reflexivity].
  apply text_eqb_eq in E; contradiction.
Qed.

Lemma text_eqb_sym (a b : text) : text_eqb a b = text_eqb b a.
Proof.
  destruct (text_eqb b a) eqn:E.
  - apply text_eqb_eq in E; subst; apply text_eqb_refl.
  - apply text_eqb_neq; intros ->; rewrite text_eqb_refl in E; discriminate.
Qed.

Section DictFacts.
Context {V : Type}.
Implicit Types (d : Dict.t V) (k : text) (v : V).

Lemma get_set_same k v d : Dict.get k (Dict.set k v d) = Some v.
Proof.
    induction d as [|[k' v'] d IH]; simpl.
    - now rewrite text_eqb_refl.
    - destruct (text_eqb k k') eqn:E; simpl; rewrite E; auto.
Qed.

Lemma get_set_other k k' v d :
    k <> k' -> Dict.get k' (Dict.set k v d) = Dict.get k' d.
Proof.
    intros Hne; induction d as [|[k0 v0] d IH]; simpl.
    - rewrite text_eqb_neq; auto.
    - destruct (text_eqb k k0) eqn:E; simpl.
      + apply text_eqb_eq in E; subst k0.
        rewrite text_eqb_neq; auto.
      + destruct (text_eqb k' k0); auto.
Qed.


Lemma set_fresh k v d : Dict.get k d = None -> Dict.set k v d = d ++ [(k, v)].
Proof.
    induction d as [|[k0 v0] d IH]; simpl; [reflexivity|].
    destruct (text_eqb k k0); [discriminate|].
    intros H; now rewrite IH.
Qed.

Lemma get_app_last k k' v d :
    Dict.get k' (d ++ [(k, v)]) =
    match Dict.get k' d with
    | Some x => Some x
    | None => if text_eqb k' k then Some v else None
    end.
Proof.
    induction d as [|[k0 v0] d IH]; simpl; [reflexivity|].
    destruct (text_eqb k' k0); auto.
Qed.

Lemma get_In k v d : Dict.get k d = Some v -> In (k, v) d.
Proof.
    induction d as [|[k0 v0] d IH]; simpl; [discriminate|].
    destruct (text_eqb k k0) eqn:E; intros H.
    - apply text_eqb_eq in E; inversion H; subst; now left.
    - right; auto.
Qed.

Lemma get_None_notin k d : Dict.get k d = None -> ~ In k (Dict.keys d).
Proof.
    induction d as [|[k0 v0] d IH]; simpl; [tauto|].
    destruct (text_eqb k k0) eqn:E; [discriminate|].
    intros H [Hk|Hk]; [|now apply IH].
    subst; rewrite text_eqb_refl in E; discriminate.
Qed.

Lemma notin_get_None k d : ~ In k (Dict.keys d) -> Dict.get k d = None.
Proof.
    induction d as [|[k0 v0] d IH]; simpl; [reflexivity|].
    intros H; rewrite text_eqb_neq; [apply IH|]; intuition congruence.
Qed.

Lemma last_entry_app k l k' v :
    Dict.last_entry k (l ++ [(k', v)]) =
    if text_eqb k k' then Some v else Dict.last_entry k l.
Proof.
    induction l as [|[k0 v0] l IH]; simpl; [reflexivity|].
    rewrite IH; destruct (text_eqb k k'); reflexivity.
Qed.

Lemma get_fold_set {A} (f : A -> text) (g : A -> V) (l : list A) d k :
    Dict.get k (fold_left (fun d a => Dict.set (f a) (g a) d) l d) =
    match Dict.last_entry k (map (fun a => (f a, g a)) l) with
    | Some v => Some v
    | None => Dict.get k d
    end.
Proof.
    revert d; induction l as [|a l IH]; intros d; simpl; [reflexivity|].
    rewrite IH.
    destruct (Dict.last_entry k (map (fun a => (f a, g a)) l)); [reflexivity|].
    destruct (text_eqb k (f a)) eqn:E.
    - apply text_eqb_eq in E; subst; apply get_set_same.
    - apply get_set_other; intros <-; rewrite text_eqb_refl in E; discriminate.
Qed.

Lemma get_of_pairs k (l : list (text * V)) :
    Dict.get k (Dict.of_pairs l) = Dict.last_entry k l.
Proof.
    unfold Dict.of_pairs; rewrite (get_fold_set fst snd).
    replace (map (fun a => (fst a, snd a)) l) with l.
    - now destruct (Dict.last_entry k l).
    - induction l as [|[a b] l IH]; simpl; congruence.
Qed.
End DictFacts.

Section DistinctKeys.
Context {V : Type}.

Lemma existsb_text_eqb_In (k : text) (ks : list text) :
  existsb (text_eqb k) ks = true <-> In k ks.
Proof.
  rewrite existsb_exists; split.
  - intros [x [Hx E]]; apply text_eqb_eq in E; now subst.
  - intros H; exists k; split; [assumption | apply text_eqb_refl].
Qed.

Lemma last_entry_In (k : text) (v : V) (l : list (text * V)) :
  Dict.last_entry k l = Some v -> In (k, v) l.
Proof.
  induction l as [|[k0 v0] l IH]; simpl; [discriminate|].
  destruct (Dict.last_entry k l) eqn:E.
  - intros H; inversion H; subst; right; now apply IH.
  - destruct (text_eqb k k0) eqn:E0; [|discriminate].
    apply text_eqb_eq in E0; intros H; inversion H; subst; now left.
Qed.

Lemma In_last_entry (k : text) (v : V) (l : list (text * V)) :
  distinct (map fst l) = true -> In (k, v) l -> Dict.last_entry k l = Some v.
Proof.
  induction l as [|[k0 v0] l IH]; simpl; [tauto|].
  rewrite andb_true_iff, negb_true_iff; intros [Hk Hd] [H|H].
  - inversion H; subst.
    destruct (Dict.last_entry k l) eqn:E.
    + apply last_entry_In in E.
      assert (In k (map fst l)) by (apply (in_map fst) in E; exact E).
      apply existsb_text_eqb_In in H0; congruence.
    + now rewrite text_eqb_refl.
  - now rewrite (IH Hd H).
Qed.

Lemma In_get (k : text) (v : V) (d : Dict.t V) :
  distinct (Dict.keys d) = true -> In (k, v) d -> Dict.get k d = Some v.
Proof.
  unfold Dict.keys.
  induction d as [|[k0 v0] d IH]; simpl; [tauto|].
  rewrite andb_true_iff, negb_true_iff; intros [Hk Hd] [H|H].
  - inversion H; subst; now rewrite text_eqb_refl.
  - destruct (text_eqb k k0) eqn:E; [|now apply IH].
    apply text_eqb_eq in E; subst k0.
    assert (In k (map fst d)) by (apply (in_map fst) in H; exact H).
    apply existsb_text_eqb_In in H0; congruence.
Qed.
End DistinctKeys.

(** ** The registry *)

Lemma CORE_TOKENS_keys_distinct : distinct (Dict.keys CORE_TOKENS) = true.
Proof. vm_compute; reflexivity. Qed.

Lemma CORE_TOKENS_values_distinct : distinct (map snd CORE_TOKENS) = true.
Proof. vm_compute; reflexivity. Qed.

Lemma resolve_to_symbol_inverse (canonical sym : text) :
  resolve_to_symbol canonical = Some sym <->
  Dict.get sym CORE_TOKENS = Some canonical.
Proof.
  pose (sw := map (fun a : text * text => (snd a, fst a)) CORE_TOKENS).
  assert (Hr : resolve_to_symbol canonical = Dict.last_entry canonical sw).
  { unfold resolve_to_symbol, SLASH_TO_EMOJI.
    rewrite (get_fold_set snd fst); fold sw.
    destruct (Dict.last_entry canonical sw); reflexivity. }
  assert (Hsw : forall a b, In (a, b) sw <-> In (b, a) CORE_TOKENS).
  { intros a b; unfold sw; rewrite in_map_iff; split.
    - intros [[x y] [E H]]; simpl in E; inversion E; now subst.
    - intros H; exists (b, a); auto. }
  assert (Hd : distinct (map fst sw) = true).
  { unfold sw; rewrite map_map; apply CORE_TOKENS_values_distinct. }
  rewrite Hr; split.
  - intros E; apply last_entry_In, Hsw in E.
    apply In_get; [apply CORE_TOKENS_keys_distinct | exact E].
  - intros H; apply get_In, Hsw in H.
    exact (In_last_entry _ _ _ Hd H).
Qed.

(** C3.  The registry is built from the symbol table with the last
    definition of a symbol winning: looking a symbol up gives the canonical
    identifier of its last table entry (so the three symbols defined more
    than once resolve to /goal, /transform and /introspect), a token that is
    no symbol passes through unchanged, and the reverse lookup is exactly
    the inversion of the resolved table. *)
Theorem registry_last_definition_wins :
  (forall sym,
     Dict.get sym CORE_TOKENS = Dict.last_entry sym CORE_TOKENS_display) /\
  (forall token_raw,
     resolve_to_canonical token_raw =
     match Dict.last_entry token_raw CORE_TOKENS_display with
     | Some canonical => canonical
     | None => token_raw
     end) /\
  resolve_to_canonical (U "🎯") = U "/goal" /\
  resolve_to_canonical (U "🔄") = U "/transform" /\
  resolve_to_canonical (U "🔍") = U "/introspect" /\
  (forall canonical sym,
     resolve_to_symbol canonical = Some sym <->
     Dict.get sym CORE_TOKENS = Some canonical).
Proof.
  split; [|split; [|split; [|split; [|split]]]].
  - intros sym; apply get_of_pairs.
  - intros t; unfold resolve_to_canonical, CORE_TOKENS.
    now rewrite get_of_pairs.
  - vm_compute; reflexivity.
  - vm_compute; reflexivity.
  - vm_compute; reflexivity.
  - apply resolve_to_symbol_inverse.
Qed.

(** ** The validator *)

Lemma validate_message_eq (tokens : Dict.t text) (errors : list text) :
  let has k := Dict.mem (U k) tokens in
  validate_message tokens errors =
    (negb (has "/act"%string)
     || (has "/intent"%string && has "/context"%string),
     errors
     ++ (if has "/act"%string && negb (has "/intent"%string)
         then [ERR_INTENT] else [])
     ++ (if has "/act"%string && negb (has "/context"%string)
         then [ERR_CONTEXT] else [])
     ++ (if (has "/act"%string || has "/query"%string
             || has "/resolve"%string)
            && negb (has "/deliverable"%string)
         then [WARN_DELIVERABLE] else [])).
Proof.
  intros has; unfold validate_message; simpl existsb.
  fold (has "/act"%string) (has "/intent"%string) (has "/context"%string)
       (has "/query"%string) (has "/resolve"%string)
       (has "/deliverable"%string).
  destruct (has "/act"%string), (has "/intent"%string),
    (has "/context"%string), (has "/query"%string),
    (has "/resolve"%string), (has "/deliverable"%string);
    simpl; rewrite ?app_nil_r, <- ?app_assoc; reflexivity.
Qed.

(** C5.  The validator's rules in their fixed order: with the action token,
    a missing intent and a missing context each append their error and
    clear the flag, independently of each other; then any of action, query,
    resolve without a deliverable appends the warning and leaves the flag
    alone.  In particular an action with neither intent nor context gets
    exactly the two errors (before the possible warning) and is invalid. *)
Theorem validate_message_rules (tokens : Dict.t text) (errors : list text) :
  let has k := Dict.mem (U k) tokens in
  validate_message tokens errors =
    (negb (has "/act"%string)
     || (has "/intent"%string && has "/context"%string),
     errors
     ++ (if has "/act"%string && negb (has "/intent"%string)
         then [ERR_INTENT] else [])
     ++ (if has "/act"%string && negb (has "/context"%string)
         then [ERR_CONTEXT] else [])
     ++ (if (has "/act"%string || has "/query"%string
             || has "/resolve"%string)
            && negb (has "/deliverable"%string)
         then [WARN_DELIVERABLE] else []))
  /\ (has "/act"%string = true -> has "/intent"%string = false ->
      has "/context"%string = false ->
      validate_message tokens [] =
        (false,
         [ERR_INTENT; ERR_CONTEXT]
         ++ (if has "/deliverable"%string then [] else [WARN_DELIVERABLE]))).
Proof.
  intros has; split; [apply validate_message_eq|].
  pose proof (validate_message_eq tokens []) as H; cbv zeta in H.
  unfold has; cbv beta; intros Ha Hi Hc.
  rewrite H, Ha, Hi, Hc.
  destruct (Dict.mem (U "/deliverable") tokens); reflexivity.
Qed.

Lemma validate_message_rules_witness :
  let tokens : Dict.t text := [(U "/act", U "ship_v1")] in
  validate_message tokens [] =
    (false, [ERR_INTENT; ERR_CONTEXT; WARN_DELIVERABLE]).
Proof.
  intros tokens.
  exact (proj2 (validate_message_rules tokens [])
           eq_refl eq_refl eq_refl).
Defined.

(** ** Message construction *)

(** C9.  A synthesized message, for every token mapping, agent and agent
    kind, is valid, has no validation errors and has the mapping formatted
    with symbols as its raw text; [initialize_conversation] builds its
    message this way.  The validator is not consulted: a mapping it rejects
    is synthesized as valid all the same. *)
Theorem synthesize_is_valid (now : text) (toks : Dict.t text) (agent : text)
    (agent_type : AgentType) :
  let m := synthesize now toks agent agent_type in
  is_valid m = true /\
  validation_errors m = [] /\
  raw_text m = format_message toks true /\
  tokens m = toks /\
  (forall topic participants context intent e,
     fst (initialize_conversation now topic participants context intent e) =
     synthesize now (init_tokens topic participants context intent)
       (U "system") HUMAN) /\
  (let rejected : Dict.t text := [(U "/act", U "go")] in
   fst (validate_message rejected []) = false /\
   is_valid (synthesize now rejected agent agent_type) = true).
Proof.
  cbv zeta; repeat split.
Qed.

(** ** The example message *)

(** C1 (evaluation).  On the four-line example the symbol of the third line
    resolves to /goal, not /context, so the mapping has no /context entry,
    the action rule fires once and the message is invalid. *)
Theorem parse_example_message (now agent : text) (agent_type : AgentType) :
  let m :=
    parse_message now
      (U "🚀: ship_v1" ++ [LF] ++ U "💡: deliver_value" ++ [LF]
       ++ U "🎯: launch" ++ [LF] ++ U "📦: release_notes")
      agent agent_type in
  tokens m =
    [(U "/act", U "ship_v1"); (U "/intent", U "deliver_value");
     (U "/goal", U "launch"); (U "/deliverable", U "release_notes")] /\
  Dict.mem (U "/context") (tokens m) = false /\
  is_valid m = false /\
  validation_errors m = [ERR_CONTEXT].
Proof.
  cbv zeta; repeat split; vm_compute; reflexivity.
Qed.

(** ** The active context *)

Lemma get_update_active_context (ctx : Dict.t text) (m : NeuroGlyphMessage)
    (k : text) :
  Dict.get k (update_active_context ctx m) =
  if existsb (text_eqb k) sticky_keys && Dict.mem k (tokens m)
  then Dict.get k (tokens m)
  else Dict.get k ctx.
Proof.
  assert (Hcf : U "/context" <> U "/focus") by (vm_compute; discriminate).
  unfold update_active_context, sticky_keys, Dict.mem; simpl existsb.
  destruct (text_eqb k (U "/context")) eqn:Ec.
  - apply text_eqb_eq in Ec; subst k; simpl.
    destruct (Dict.get (U "/context") (tokens m)) eqn:E1;
      destruct (Dict.get (U "/focus") (tokens m)) eqn:E2;
      rewrite ?get_set_other by congruence;
      rewrite ?get_set_same; reflexivity.
  - destruct (text_eqb k (U "/focus")) eqn:Ef.
    + apply text_eqb_eq in Ef; subst k; simpl.
      destruct (Dict.get (U "/context") (tokens m)) eqn:E1;
        destruct (Dict.get (U "/focus") (tokens m)) eqn:E2;
        rewrite ?get_set_same; try reflexivity;
        rewrite ?get_set_other by congruence; reflexivity.
    + assert (Hc : U "/context" <> k)
        by (intros <-; rewrite text_eqb_refl in Ec; discriminate).
      assert (Hf : U "/focus" <> k)
        by (intros <-; rewrite text_eqb_refl in Ef; discriminate).
      simpl.
      destruct (Dict.get (U "/context") (tokens m));
        destruct (Dict.get (U "/focus") (tokens m));
        rewrite ?(get_set_other _ _ _ _ Hf), ?(get_set_other _ _ _ _ Hc);
        reflexivity.
Qed.



Lemma last_declared_app (k : text) (h : list NeuroGlyphMessage)
    (m : NeuroGlyphMessage) :
  last_declared k (h ++ [m]) =
  match Dict.get k (tokens m) with
  | Some v => Some v
  | None => last_declared k h
  end.
Proof.
  induction h as [|m0 h IH]; simpl.
  - now destruct (Dict.get k (tokens m)).
  - rewrite IH; now destruct (Dict.get k (tokens m)).
Qed.

Lemma last_initialization_app (calls : list Call) (c : Call) :
  last_initialization (calls ++ [c]) =
  match c with
  | Initialize _ topic participants context intent =>
      Some (init_tokens topic participants context intent)
  | AddMessage _ _ _ _ => last_initialization calls
  end.
Proof.
  induction calls as [|c0 calls IH]; simpl.
  - now destruct c.
  - rewrite IH; destruct c; [reflexivity|].
    reflexivity.
Qed.

Lemma run_app (calls : list Call) (c : Call) :
  run (calls ++ [c]) = step (run calls) c.
Proof. unfold run; now rewrite fold_left_app. Qed.

Lemma init_tokens_keys (topic : text) (participants : list text)
    (context intent k : text) :
  Dict.mem k (init_tokens topic participants context intent) = true ->
  In k init_keys.
Proof.
  unfold Dict.mem, init_tokens; rewrite get_of_pairs.
  destruct (Dict.last_entry k _) eqn:E; [|discriminate].
  intros _; apply last_entry_In in E.
  apply (in_map fst) in E; exact E.
Qed.

Lemma init_tokens_sticky (topic : text) (participants : list text)
    (context intent k : text) :
  In k sticky_keys ->
  Dict.mem k (init_tokens topic participants context intent) = true.
Proof.
  intros [<-|[<-|[]]]; reflexivity.
Qed.

Lemma step_Initialize (e : Engine) (now topic : text)
    (participants : list text) (context intent : text) :
  let toks := init_tokens topic participants context intent in
  active_context (step e (Initialize now topic participants context intent))
    = toks /\
  exists m,
    tokens m = toks /\
    conversation_history
      (step e (Initialize now topic participants context intent))
    = conversation_history e ++ [m].
Proof.
  split; [reflexivity|].
  exists (synthesize now (init_tokens topic participants context intent)
            (U "system") HUMAN).
  split; reflexivity.
Qed.

Lemma step_AddMessage (e : Engine) (now s agent : text)
    (agent_type : AgentType) :
  let m := parse_message now s agent agent_type in
  active_context (step e (AddMessage now s agent agent_type))
    = update_active_context (active_context e) m /\
  conversation_history (step e (AddMessage now s agent agent_type))
    = conversation_history e ++ [m].
Proof. split; reflexivity. Qed.

(** C6 (as amended).  At every point of a conversation, whatever the calls
    so far: each of the two sticky keys /context and /focus has in the
    active context the value of the last message that declared it, and is
    absent exactly when no message declared it; every other key has the
    value the last initialization wrote, later declarations
    notwithstanding; and only keys written by an initialization occur. *)
Theorem active_context_invariant (calls : list Call) :
  let e := run calls in
  (forall k, In k sticky_keys ->
     Dict.get k (active_context e) =
     last_declared k (conversation_history e)) /\
  (forall k, ~ In k sticky_keys ->
     Dict.get k (active_context e) =
     match last_initialization calls with
     | Some toks => Dict.get k toks
     | None => None
     end) /\
  (forall k, Dict.mem k (active_context e) = true -> In k init_keys).
Proof.
  cbv zeta.
  induction calls as [|c calls IH] using rev_ind.
  - repeat split; try discriminate; reflexivity.
  - destruct IH as [IH1 [IH2 IH3]].
    rewrite run_app, last_initialization_app.
    destruct c as [now topic ps ctx intent | now s agent ty].
    + destruct (step_Initialize (run calls) now topic ps ctx intent)
        as [Ha [m [Hm Hh]]].
      rewrite Ha, Hh; split; [|split].
      * intros k Hk; rewrite last_declared_app, Hm.
        pose proof (init_tokens_sticky topic ps ctx intent k Hk) as H.
        unfold Dict.mem in H.
        now destruct (Dict.get k (init_tokens topic ps ctx intent)).
      * reflexivity.
      * apply init_tokens_keys.
    + destruct (step_AddMessage (run calls) now s agent ty) as [Ha Hh].
      rewrite Ha, Hh; split; [|split].
      * intros k Hk; rewrite last_declared_app, get_update_active_context.
        apply existsb_text_eqb_In in Hk; rewrite Hk.
        unfold Dict.mem.
        destruct (Dict.get k (tokens (parse_message now s agent ty)));
          [reflexivity|].
        apply IH1, existsb_text_eqb_In, Hk.
      * intros k Hk; rewrite get_update_active_context.
        destruct (existsb (text_eqb k) sticky_keys) eqn:E.
        -- apply existsb_text_eqb_In in E; contradiction.
        -- cbn [andb]; now apply IH2.
      * intros k.
        assert (G : forall d : Dict.t text,
                  Dict.mem k d = match Dict.get k d with
                                 | Some _ => true | None => false end)
          by reflexivity.
        rewrite G, get_update_active_context.
        destruct (existsb (text_eqb k) sticky_keys) eqn:E.
        -- intros _; apply existsb_text_eqb_In in E.
           destruct E as [<-|[<-|[]]]; vm_compute; tauto.
        -- cbn [andb]; rewrite <- G; apply IH3.
Qed.

Lemma active_context_invariant_witness :
  Dict.get (U "/focus")
    (active_context
       (run [Initialize (U "t0") (U "protocols") [U "alice"] [] [];
             AddMessage (U "t1") (U "/focus: parsers") (U "alice") HUMAN]))
  = Some (U "parsers").
Proof.
  rewrite (proj1 (active_context_invariant
                    [Initialize (U "t0") (U "protocols") [U "alice"] [] [];
                     AddMessage (U "t1") (U "/focus: parsers") (U "alice")
                       HUMAN]) (U "/focus")).
  - vm_compute; reflexivity.
  - vm_compute; tauto.
Defined.

(** C6 (counterexample).  After an initialization naming alice and a
    message declaring /mind as bob, the active context still has alice
    under /mind although the last message declaring that key says bob; and
    /act, declared by that message, is absent from the active context. *)
Lemma active_context_stale_after_add :
  let e :=
    run [Initialize (U "t0") (U "protocols") [U "alice"] [] [];
         AddMessage (U "t1") (U "/mind: bob" ++ [LF] ++ U "/act: go")
           (U "bob") HUMAN] in
  ~ (forall k v, Dict.get k (active_context e) = Some v ->
                 last_declared k (conversation_history e) = Some v) /\
  ~ (forall k, Dict.get k (active_context e) = None ->
               last_declared k (conversation_history e) = None).
Proof.
  cbv zeta; split; intros H.
  - specialize (H (U "/mind") (U "alice")).
    vm_compute in H; specialize (H eq_refl); discriminate.
  - specialize (H (U "/act")).
    vm_compute in H; specialize (H eq_refl); discriminate.
Qed.

(** ** The token pattern *)

Arguments is_glyph : simpl never.
Arguments is_word : simpl never.
Arguments is_space : simpl never.
Arguments lookahead : simpl never.
Arguments slash_word_colon : simpl never.
Arguments match_here : simpl never.

Lemma glyph_class_all (P : N -> bool) (c : N) :
  forallb P glyph_class = true -> is_glyph c = true -> P c = true.
Proof.
  intros HP Hc; unfold is_glyph in Hc.
  apply existsb_exists in Hc; destruct Hc as [x [Hx E]].
  apply N.eqb_eq in E; subst x.
  rewrite forallb_forall in HP; auto.
Qed.

Lemma glyph_not_word (c : N) : is_glyph c = true -> is_word c = false.
Proof.
  intros H; apply negb_true_iff.
  apply (glyph_class_all (fun x => negb (is_word x))); [|exact H].
  vm_compute; reflexivity.
Qed.

Lemma glyph_not_space (c : N) : is_glyph c = true -> is_space c = false.
Proof.
  intros H; apply negb_true_iff.
  apply (glyph_class_all (fun x => negb (is_space x))); [|exact H].
  vm_compute; reflexivity.
Qed.

Lemma word_not_glyph (c : N) : is_word c = true -> is_glyph c = false.
Proof.
  intros H; destruct (is_glyph c) eqn:E; [|reflexivity].
  apply glyph_not_word in E; congruence.
Qed.

Lemma word_not_slash (c : N) : is_word c = true -> (c =? SLASH)%N = false.
Proof.
  intros H; destruct (c =? SLASH)%N eqn:E; [|reflexivity].
  apply N.eqb_eq in E; subst; vm_compute in H; discriminate.
Qed.

Lemma word_not_colon (c : N) : is_word c = true -> (c =? COLON)%N = false.
Proof.
  intros H; destruct (c =? COLON)%N eqn:E; [|reflexivity].
  apply N.eqb_eq in E; subst; vm_compute in H; discriminate.
Qed.

Lemma space_not_glyph (c : N) : is_space c = true -> is_glyph c = false.
Proof.
  intros H; destruct (is_glyph c) eqn:E; [|reflexivity].
  apply glyph_not_space in E; congruence.
Qed.

Lemma space_not_slash (c : N) : is_space c = true -> (c =? SLASH)%N = false.
Proof.
  intros H; destruct (c =? SLASH)%N eqn:E; [|reflexivity].
  apply N.eqb_eq in E; subst; vm_compute in H; discriminate.
Qed.

Lemma word_run_app (w r : text) :
  forallb is_word w = true -> stops_word r -> word_run (w ++ r) = (w, r).
Proof.
  intros Hw Hr; induction w as [|c w IH]; simpl.
  - destruct r as [|c r]; [reflexivity|].
    simpl in Hr; simpl; now rewrite Hr.
  - simpl in Hw; apply andb_true_iff in Hw; destruct Hw as [Hc Hw].
    now rewrite Hc, IH.
Qed.

Lemma word_run_spec (s w rest : text) :
  word_run s = (w, rest) ->
  s = w ++ rest /\ forallb is_word w = true /\ stops_word rest.
Proof.
  revert w rest; induction s as [|c s IH]; simpl; intros w rest H.
  - inversion H; subst; simpl; auto.
  - destruct (is_word c) eqn:Ec.
    + destruct (word_run s) as [w' rest'] eqn:E.
      inversion H; subst.
      destruct (IH _ _ eq_refl) as [-> [Hw Hs]].
      simpl; rewrite Ec, Hw; auto.
    + inversion H; subst; simpl; auto.
Qed.

Lemma is_canonical_spec (k : text) :
  is_canonical k = true <->
  exists w, k = SLASH :: w /\ w <> [] /\ forallb is_word w = true.
Proof.
  unfold is_canonical; split.
  - destruct k as [|c [|c' w]]; try discriminate.
    rewrite andb_true_iff, N.eqb_eq; intros [-> Hw].
    exists (c' :: w); repeat split; [discriminate | exact Hw].
  - intros [w [-> [Hne Hw]]].
    destruct w as [|c' w]; [contradiction|].
    now rewrite N.eqb_refl, Hw.
Qed.

Lemma is_token_spec (tok : text) :
  is_token tok = true <->
  (exists c, tok = [c] /\ is_glyph c = true) \/
  (exists w, tok = SLASH :: w /\ w <> [] /\ forallb is_word w = true).
Proof.
  unfold is_token; split.
  - destruct tok as [|c [|c' w]]; try discriminate.
    + intros H; left; eauto.
    + intros H; right; now apply is_canonical_spec.
  - intros [[c [-> H]] | H]; [exact H|].
    pose proof H as [w [-> [Hne _]]].
    destruct w; [contradiction|]; now apply is_canonical_spec.
Qed.

Lemma group1_spec (s tok rest : text) :
  group1 s = Some (tok, rest) -> s = tok ++ rest /\ is_token tok = true.
Proof.
  unfold group1; destruct s as [|c r]; [discriminate|].
  destruct (is_glyph c) eqn:Eg.
  - intros H; inversion H; subst; simpl; auto.
  - destruct (c =? SLASH)%N eqn:Es; [|discriminate].
    apply N.eqb_eq in Es; subst c.
    destruct (word_run r) as [[|c' w] rest'] eqn:E; [discriminate|].
    intros H; inversion H; subst.
    destruct (word_run_spec _ _ _ E) as [-> [Hw _]].
    split; [reflexivity|].
    apply is_token_spec; right; exists (c' :: w).
    repeat split; [discriminate | exact Hw].
Qed.

Lemma group1_token (tok r : text) :
  is_token tok = true -> group1 (tok ++ COLON :: r) = Some (tok, COLON :: r).
Proof.
  intros H; apply is_token_spec in H.
  destruct H as [[c [-> Hc]] | [w [-> [Hne Hw]]]]; simpl.
  - now rewrite Hc.
  - change (is_glyph SLASH) with false; cbn iota.
    change (SLASH =? SLASH)%N with true; cbn iota.
    rewrite word_run_app; [|exact Hw | reflexivity].
    destruct w; [contradiction | reflexivity].
Qed.

Lemma lazy_dots_spec (s v rest : text) :
  lazy_dots s = (v, rest) -> s = v ++ rest.
Proof.
  revert v rest; induction s as [|c s IH]; intros v rest; simpl.
  - intros H; now inversion H.
  - destruct (lookahead (c :: s)).
    + intros H; now inversion H.
    + destruct (lazy_dots s) as [v' rest'] eqn:E.
      intros H; inversion H; subst; simpl; f_equal; now apply IH.
Qed.

Lemma group2_spec (s v rest : text) :
  group2 s = Some (v, rest) -> s = v ++ rest /\ v <> [].
Proof.
  unfold group2; destruct s as [|c s]; [discriminate|].
  destruct (lazy_dots s) as [v' rest'] eqn:E.
  intros H; inversion H; subst.
  apply lazy_dots_spec in E; subst; split; [reflexivity | discriminate].
Qed.

Lemma spaces_group2_spec (s v rest : text) :
  spaces_group2 s = Some (v, rest) ->
  exists ws, s = ws ++ v ++ rest /\ forallb is_space ws = true /\ v <> [].
Proof.
  revert v rest; induction s as [|c s IH]; intros v rest; simpl;
    [discriminate|].
  assert (G : group2 (c :: s) = Some (v, rest) ->
              exists ws, c :: s = ws ++ v ++ rest /\
                         forallb is_space ws = true /\ v <> []).
  { intros H; apply group2_spec in H; destruct H as [H1 H2].
    exists []; auto. }
  destruct (is_space c) eqn:Ec; [|exact G].
  destruct (spaces_group2 s) as [[v' rest']|] eqn:E; [|exact G].
  intros H; inversion H; subst.
  destruct (IH _ _ eq_refl) as [ws [-> [Hws Hv]]].
  exists (c :: ws); simpl; rewrite Ec; auto.
Qed.

Lemma match_here_spec (s tok v rest : text) :
  match_here s = Some (tok, v, rest) ->
  exists ws,
    s = tok ++ [COLON] ++ ws ++ v ++ rest /\
    is_token tok = true /\ forallb is_space ws = true /\ v <> [].
Proof.
  unfold match_here.
  destruct (group1 s) as [[tok' [|c r]]|] eqn:E1; try discriminate.
  destruct (c =? COLON)%N eqn:Ec; [|discriminate].
  apply N.eqb_eq in Ec; subst c.
  destruct (spaces_group2 r) as [[v' rest']|] eqn:E2; [|discriminate].
  intros H; inversion H; subst.
  apply group1_spec in E1; destruct E1 as [-> Ht].
  apply spaces_group2_spec in E2; destruct E2 as [ws [-> [Hws Hv]]].
  exists ws; auto.
Qed.

Lemma scan_skip (n : nat) (s : text) : scan n s = scan 0 (skipn n s).
Proof.
  revert n; induction s as [|c s IH]; intros [|n]; try reflexivity.
  simpl scan at 1; simpl skipn; apply IH.
Qed.

Lemma findall_match (s tok v rest : text) :
  match_here s = Some (tok, v, rest) ->
  findall s = (tok, v) :: findall rest.
Proof.
  intros H; pose proof (match_here_spec _ _ _ _ H) as [ws [E [Ht _]]].
  destruct tok as [|t0 tk]; [discriminate|].
  unfold findall; destruct s as [|c r]; [discriminate|].
  simpl scan; rewrite H; f_equal.
  rewrite scan_skip; f_equal.
  assert (Hc : r = (tk ++ [COLON] ++ ws ++ v) ++ rest).
  { simpl in E; inversion E; now rewrite <- !app_assoc. }
  rewrite Hc.
  rewrite length_app, Nat.add_sub.
  rewrite skipn_app, skipn_all, Nat.sub_diag; reflexivity.
Qed.

Lemma findall_no_match (c : N) (r : text) :
  match_here (c :: r) = None -> findall (c :: r) = findall r.
Proof. unfold findall; simpl; now intros ->. Qed.

Lemma match_here_inert (c : N) (r : text) :
  inert c = true -> match_here (c :: r) = None.
Proof.
  unfold inert, match_here, group1.
  rewrite andb_true_iff, !negb_true_iff; intros [-> ->]; reflexivity.
Qed.

Lemma findall_inert_prefix (pre s : text) :
  forallb inert pre = true -> findall (pre ++ s) = findall s.
Proof.
  induction pre as [|c pre IH]; simpl; [reflexivity|].
  rewrite andb_true_iff; intros [Hc Hp].
  rewrite findall_no_match; [now apply IH | now apply match_here_inert].
Qed.

Lemma word_inert (w : text) :
  forallb is_word w = true -> forallb inert w = true.
Proof.
  rewrite !forallb_forall; intros H c Hc; unfold inert.
  now rewrite (word_not_glyph c), (word_not_slash c) by auto.
Qed.

Lemma space_inert (ws : text) :
  forallb is_space ws = true -> forallb inert ws = true.
Proof.
  rewrite !forallb_forall; intros H c Hc; unfold inert.
  now rewrite (space_not_glyph c), (space_not_slash c) by auto.
Qed.

Lemma match_here_colon (s : text) (x : text * text * text) :
  match_here s = Some x -> In COLON s.
Proof.
  destruct x as [[tok v] rest]; intros H.
  apply match_here_spec in H; destruct H as [ws [-> _]].
  apply in_or_app; right; now left.
Qed.

Lemma no_colon_no_match (s : text) : ~ In COLON s -> has_match s = false.
Proof.
  induction s as [|c s IH]; [reflexivity|].
  intros H; simpl.
  destruct (match_here (c :: s)) eqn:E.
  - apply match_here_colon in E; contradiction.
  - apply IH; intros Hs; apply H; now right.
Qed.

Lemma findall_no_token (s : text) : has_match s = false -> findall s = [].
Proof.
  induction s as [|c s IH]; [reflexivity|].
  simpl; destruct (match_here (c :: s)) eqn:E; [discriminate|].
  intros H; rewrite findall_no_match; auto.
Qed.

Lemma validate_message_invalid (tokens : Dict.t text) :
  fst (validate_message tokens []) = false ->
  snd (validate_message tokens []) <> [].
Proof.
  unfold validate_message; cbn [existsb].
  destruct (Dict.mem (U "/act") tokens), (Dict.mem (U "/intent") tokens),
    (Dict.mem (U "/context") tokens), (Dict.mem (U "/query") tokens),
    (Dict.mem (U "/resolve") tokens), (Dict.mem (U "/deliverable") tokens);
    cbn [fst snd negb orb andb app]; intros H;
    first [discriminate H | discriminate].
Qed.

(** C8.  Parsing is a total function of the text: the message always comes
    back, carrying the text, the agent, the tokens found and the verdict of
    the validator, and an invalid message always has a diagnostic.  A text
    in which the pattern matches nowhere (in particular any text without a
    colon) gives the empty mapping, a valid message and no diagnostics. *)
Theorem parse_message_never_fails (now s who : text) (kind : AgentType) :
  let m := parse_message now s who kind in
  (raw_text m = s /\ agent m = who /\ agent_type m = kind /\
   tokens m = tokenize s /\
   (is_valid m, validation_errors m) = validate_message (tokenize s) []) /\
  (is_valid m = false -> validation_errors m <> []) /\
  (has_match s = false ->
   tokens m = [] /\ is_valid m = true /\ validation_errors m = []) /\
  (~ In COLON s -> has_match s = false).
Proof.
  cbv zeta; unfold parse_message.
  pose proof (validate_message_invalid (tokenize s)) as Hinv.
  destruct (validate_message (tokenize s) []) as [ok errs] eqn:E.
  unfold NeuroGlyphMessage_init; cbn [raw_text agent agent_type tokens
    is_valid validation_errors].
  split; [repeat split|split; [|split]].
  - exact Hinv.
  - intros H; unfold tokenize in *.
    rewrite (findall_no_token s H) in *.
    vm_compute in E; inversion E; auto.
  - apply no_colon_no_match.
Qed.

Lemma parse_message_never_fails_witness :
  let m := parse_message (U "t0") (U "hello world") (U "alice") HUMAN in
  tokens m = [] /\ is_valid m = true /\ validation_errors m = [].
Proof.
  apply (proj1 (proj2 (proj2 (parse_message_never_fails
           (U "t0") (U "hello world") (U "alice") HUMAN)))).
  vm_compute; reflexivity.
Defined.

Lemma spaces_group2_blank (ws : text) :
  ws <> [] -> forallb is_space ws = true ->
  spaces_group2 ws = Some ([last ws SPACE], []).
Proof.
  induction ws as [|c ws IH]; [contradiction|].
  intros _; cbn [forallb]; rewrite andb_true_iff; intros [Hc Hws].
  cbn [spaces_group2]; rewrite Hc.
  destruct ws as [|c' ws]; [reflexivity|].
  rewrite IH; [reflexivity | discriminate | exact Hws].
Qed.

Lemma strip_blank (c : N) : is_space c = true -> strip [c] = [].
Proof. intros H; unfold strip; simpl; now rewrite H. Qed.

Lemma last_forallb (P : N -> bool) (ws : text) (d : N) :
  ws <> [] -> forallb P ws = true -> P (last ws d) = true.
Proof.
  intros Hne H; rewrite forallb_forall in H; apply H.
  destruct (exists_last Hne) as [l [x ->]].
  rewrite last_last; apply in_or_app; right; now left.
Qed.

Lemma empty_value_token (tok ws : text) :
  is_token tok = true -> forallb is_space ws = true ->
  tokenize (tok ++ [COLON] ++ ws) =
  match ws with
  | [] => []
  | _ :: _ => [(resolve_to_canonical tok, [])]
  end.
Proof.
  intros Ht Hws; unfold tokenize.
  change (tok ++ [COLON] ++ ws) with (tok ++ COLON :: ws).
  pose proof (group1_token tok ws Ht) as Hg.
  destruct ws as [|c ws].
  - assert (Hn : match_here (tok ++ [COLON]) = None).
    { unfold match_here; rewrite Hg.
      change (COLON =? COLON)%N with true; reflexivity. }
    destruct tok as [|x r]; [discriminate|].
    assert (Hi : forallb inert (r ++ [COLON]) = true).
    { apply is_token_spec in Ht.
      destruct Ht as [[y [E _]] | [w [E [_ Hw]]]]; inversion E; subst.
      - reflexivity.
      - rewrite forallb_app, (word_inert _ Hw); reflexivity. }
    simpl app in *; rewrite findall_no_match by exact Hn.
    rewrite <- (app_nil_r (r ++ [COLON])), (findall_inert_prefix _ [] Hi).
    reflexivity.
  - assert (Hm : match_here (tok ++ COLON :: c :: ws) =
                 Some (tok, [last (c :: ws) SPACE], [])).
    { unfold match_here; rewrite Hg.
      change (COLON =? COLON)%N with true; cbn iota.
      rewrite spaces_group2_blank; [reflexivity | discriminate | exact Hws]. }
    rewrite (findall_match _ _ _ _ Hm).
    change (findall []) with (@nil (text * text)).
    unfold collect_tokens; cbn [fold_left fst snd Dict.set Dict.empty].
    rewrite strip_blank; [reflexivity|].
    apply last_forallb; [discriminate | exact Hws].
Qed.

Lemma registered_symbol_shape (sym : text) :
  Dict.mem sym CORE_TOKENS = true ->
  is_token sym = true \/
  exists g c, sym = [g; c] /\ is_glyph g = true /\ is_glyph c = true.
Proof.
  unfold Dict.mem; destruct (Dict.get sym CORE_TOKENS) as [v|] eqn:E;
    [intros _ | discriminate].
  apply get_In in E.
  assert (G : forallb
                (fun kv : text * text =>
                   is_token (fst kv)
                   || match fst kv with
                      | [g; c] => is_glyph g && is_glyph c
                      | _ => false
                      end) CORE_TOKENS = true) by (vm_compute; reflexivity).
  rewrite forallb_forall in G; specialize (G _ E); cbn [fst] in G.
  apply orb_true_iff in G; destruct G as [G|G]; [now left|].
  destruct sym as [|g [|c [|x sym]]]; try discriminate.
  apply andb_true_iff in G; right; exists g, c; tauto.
Qed.

Lemma read_token_of_token (tok : text) :
  is_token tok = true -> read_token tok = tok.
Proof.
  intros H; unfold read_token.
  destruct tok as [|g [|c [|x tok]]]; try reflexivity.
  destruct (is_glyph g) eqn:Eg; [|reflexivity].
  exfalso; unfold is_token, is_canonical in H.
  apply andb_true_iff in H; destruct H as [H _].
  apply N.eqb_eq in H; subst g; vm_compute in Eg; discriminate.
Qed.

Lemma findall_two_code_points (g c : N) (r : text) :
  is_glyph g = true -> is_glyph c = true ->
  findall (g :: c :: r) = findall (c :: r).
Proof.
  intros Hg Hc; apply findall_no_match.
  unfold match_here, group1; rewrite Hg.
  destruct (c =? COLON)%N eqn:E; [|reflexivity].
  apply N.eqb_eq in E; subst c; vm_compute in Hc; discriminate.
Qed.

(** C10 (as amended).  For every token a message can declare, a registered
    symbol or a [/word] identifier: the token followed by the colon and
    nothing more gives no entry; followed by the colon and one or more
    whitespace characters up to the end of the text it gives exactly one
    entry, whose value is the empty string and whose key is the canonical
    key of the token as the pattern reads it, which is the token itself
    unless it is a symbol of two code points, of which only the second is
    read. *)
Theorem empty_value_declaration (tok ws : text) :
  declarable tok = true -> forallb is_space ws = true ->
  tokenize (tok ++ [COLON] ++ ws) =
  match ws with
  | [] => []
  | _ :: _ => [(resolve_to_canonical (read_token tok), [])]
  end
  /\ (is_token tok = true -> read_token tok = tok)
  /\ (is_token tok = false ->
      exists g c, tok = [g; c] /\ read_token tok = [c]).
Proof.
  intros Hd Hws.
  assert (Hs : is_token tok = true \/
               exists g c, tok = [g; c] /\ is_glyph g = true /\
                           is_glyph c = true).
  { unfold declarable in Hd; apply orb_true_iff in Hd.
    destruct Hd as [Hd|Hd]; [now apply registered_symbol_shape | now left]. }
  split; [|split].
  - destruct Hs as [Ht | [g [c [-> [Hg Hc]]]]].
    + rewrite (read_token_of_token tok Ht).
      now apply empty_value_token.
    + unfold read_token; rewrite Hg, Hc; cbn [andb].
      unfold tokenize; cbn [app].
      rewrite (findall_two_code_points g c _ Hg Hc).
      apply (empty_value_token [c] ws); [|exact Hws].
      unfold is_token; exact Hc.
  - apply read_token_of_token.
  - intros Hn; destruct Hs as [Ht | [g [c [-> [Hg Hc]]]]]; [congruence|].
    exists g, c; split; [reflexivity|].
    unfold read_token; now rewrite Hg, Hc.
Qed.

Lemma empty_value_declaration_witness :
  tokenize (U "🏛️" ++ [COLON] ++ U "  ") = [([0xFE0F]%N, [])] /\
  tokenize (U "🚀" ++ [COLON] ++ U "  ") = [(U "/act", [])] /\
  tokenize (U "🏛️" ++ [COLON] ++ []) = [].
Proof.
  split; [|split].
  - rewrite (proj1 (empty_value_declaration (U "🏛️") (U "  ")
                      eq_refl eq_refl)).
    vm_compute; reflexivity.
  - rewrite (proj1 (empty_value_declaration (U "🚀") (U "  ")
                      eq_refl eq_refl)).
    vm_compute; reflexivity.
  - rewrite (proj1 (empty_value_declaration (U "🏛️") []
                      eq_refl eq_refl)).
    reflexivity.
Defined.

(** C10 (counterexample).  A declaration whose value is two spaces up to
    the end of the text is not dropped: the token is entered with the empty
    string as its value. *)
Lemma whitespace_value_is_kept :
  tokenize (U "🚀:  ") = [(U "/act", [])] /\
  Dict.mem (U "/act") (tokenize (U "🚀:  ")) <> false.
Proof. split; vm_compute; [reflexivity | discriminate]. Qed.

(** ** The pattern on small inputs *)

Example U_decodes_code_points :
  U "a🚀é" = [97; 0x1F680; 0xE9]%N.
Proof. vm_compute; reflexivity. Qed.

Example glyph_class_code_points :
  glyph_class =
  [0x1F680; 0x1F4DA; 0x1F9E0; 0x1F3AF; 0x1F4A1; 0x1F4E6; 0x23F0; 0x1F525;
   0x1F3D4; 0xFE0F; 0x1F517; 0x1F310; 0x1F504; 0x1F50D; 0x1F39B; 0xFE0F;
   0x26D3; 0xFE0F; 0x1F4E2; 0x1F527; 0x1F4DD; 0x1F4CA; 0x1F4E1; 0x1F465;
   0x1F3AD; 0x1F3DB; 0xFE0F; 0x1F4CB; 0x1F4B0; 0x1F91D; 0x26A1; 0x1F3A8;
   0x1F464; 0x1F30D; 0x1F4D6; 0x1F3B2; 0x1F331; 0x1F3B5; 0x1F3D7; 0xFE0F;
   0x1F441; 0xFE0F; 0x2728; 0x2753; 0x1F309; 0x2696; 0xFE0F; 0x1F4C4]%N.
Proof. vm_compute; reflexivity. Qed.

(** A value ends at the first line break: the dollar of the lookahead holds
    there whatever the next line starts with. *)
Example findall_value_ends_at_line_break :
  findall (U "🚀: a" ++ [LF] ++ U "b") = [(U "🚀", U "a")].
Proof. vm_compute; reflexivity. Qed.

(** A symbol written with a variation selector is read as the selector. *)
Example findall_two_code_point_symbol :
  findall (U "🏔️: x") = [([0xFE0F]%N, U "x")].
Proof. vm_compute; reflexivity. Qed.

Example findall_adjacent_declarations :
  findall (U "/a:/b:/c:d") = [(U "/a", U "/b:"); (U "/c", U "d")].
Proof. vm_compute; reflexivity. Qed.

Example findall_digits_in_identifier :
  findall (U "/a1: x") = [(U "/a1", U "x")].
Proof. vm_compute; reflexivity. Qed.

(** ** Segments *)

Lemma findall_In (s tok v : text) :
  In (tok, v) (findall s) ->
  exists pre suf rest,
    s = pre ++ suf /\ match_here suf = Some (tok, v, rest).
Proof.
  remember (List.length s) as n eqn:Hn.
  assert (Hle : (List.length s <= n)%nat) by lia; clear Hn.
  revert s Hle; induction n as [|n IH]; intros s Hle.
  - destruct s; [intros [] | simpl in Hle; lia].
  - destruct s as [|c r]; [intros []|].
    simpl in Hle.
    destruct (match_here (c :: r)) as [[[tok' v'] rest]|] eqn:E.
    + rewrite (findall_match _ _ _ _ E); intros [H|H].
      * inversion H; subst; exists [], (c :: r), rest; auto.
      * pose proof (match_here_spec _ _ _ _ E) as [ws [Es [Ht _]]].
        assert (Hlen : (List.length rest <= n)%nat).
        { apply (f_equal (@List.length N)) in Es.
          rewrite !length_app in Es; simpl in Es.
          assert (List.length tok' <> 0%nat)
            by (apply is_token_spec in Ht;
                destruct Ht as [[x [-> _]] | [w [-> _]]]; discriminate).
          lia. }
        destruct (IH rest Hlen H) as [pre [suf [rest' [-> Hm]]]].
        exists (tok' ++ [COLON] ++ ws ++ v' ++ pre), suf, rest'.
        split; [|exact Hm].
        rewrite Es, <- !app_assoc; reflexivity.
    + rewrite (findall_no_match _ _ E); intros H.
      destruct (IH r ltac:(lia) H) as [pre [suf [rest' [-> Hm]]]].
      exists (c :: pre), suf, rest'; auto.
Qed.

Lemma lstrip_trimmed (s : text) : lstrip (lstrip s) = lstrip s.
Proof.
  induction s as [|c s IH]; simpl; [reflexivity|].
  destruct (is_space c) eqn:E; [exact IH | simpl; now rewrite E].
Qed.

Lemma lstrip_app_nonspace (a : text) (c : N) :
  is_space c = false -> lstrip (a ++ [c]) = lstrip a ++ [c].
Proof.
  intros Hc; induction a as [|x a IH]; simpl.
  - now rewrite Hc.
  - destruct (is_space x); [exact IH | reflexivity].
Qed.

Lemma rstrip_cons_nonspace (c : N) (r : text) :
  is_space c = false -> rstrip (c :: r) = c :: rstrip r.
Proof.
  intros Hc; unfold rstrip; simpl rev.
  rewrite lstrip_app_nonspace by exact Hc.
  rewrite rev_app_distr; reflexivity.
Qed.

Lemma rstrip_rstrip (s : text) : rstrip (rstrip s) = rstrip s.
Proof. unfold rstrip; now rewrite rev_involutive, lstrip_trimmed. Qed.

Lemma strip_trimmed (s : text) : trimmed (strip s).
Proof.
  unfold trimmed, strip; split; [|apply rstrip_rstrip].
  pose proof (lstrip_trimmed s) as H.
  destruct (lstrip s) as [|c r]; [reflexivity|].
  simpl in H; destruct (is_space c) eqn:Ec.
  - exfalso.
    assert (L : forall t, (List.length (lstrip t) <= List.length t)%nat).
    { induction t as [|x t IHt]; simpl; [lia|].
      destruct (is_space x); simpl; lia. }
    specialize (L r); rewrite H in L; simpl in L; lia.
  - rewrite rstrip_cons_nonspace by exact Ec.
    simpl; now rewrite Ec.
Qed.

Lemma In_set (k k' x v : text) (d : Dict.t text) :
  In (k, x) (Dict.set k' v d) -> x = v \/ In (k, x) d.
Proof.
  induction d as [|[k0 v0] d IH]; simpl.
  - intros [H|[]]; inversion H; auto.
  - destruct (text_eqb k' k0); simpl.
    + intros [H|H]; [inversion H; auto | auto].
    + intros [H|H]; [auto | destruct (IH H); auto].
Qed.

Lemma collect_tokens_values (l : list (text * text)) (k x : text) :
  In (k, x) (collect_tokens l) -> exists m, In m l /\ x = strip (snd m).
Proof.
  unfold collect_tokens.
  assert (G : forall d,
    In (k, x)
       (fold_left
          (fun tokens m =>
             Dict.set (resolve_to_canonical (fst m)) (strip (snd m)) tokens)
          l d) ->
    In (k, x) d \/ exists m, In m l /\ x = strip (snd m)).
  { induction l as [|m l IH]; intros d; simpl; [auto|].
    intros H; destruct (IH _ H) as [H1 | [m' [H1 H2]]].
    - apply In_set in H1; destruct H1 as [-> | H1]; [right | left]; eauto.
    - right; eauto. }
  intros H; destruct (G _ H) as [[] | H1]; exact H1.
Qed.

(** C2 (counterexample).  In a text whose only line starts with plain
    words, the symbol further along the line still starts a segment, where
    the line-anchored reading finds none. *)
Lemma segment_starts_inside_line :
  tokenize (U "hi 🚀: go") = [(U "/act", U "go")] /\
  Spec.tokenize (U "hi 🚀: go") = [] /\
  tokenize (U "hi 🚀: go") <> Spec.tokenize (U "hi 🚀: go").
Proof.
  split; [vm_compute; reflexivity|].
  split; [vm_compute; reflexivity|].
  vm_compute; discriminate.
Qed.

(** ** Formatting and parsing back *)

Lemma line_end_stops_word (tail : text) : line_end tail -> stops_word tail.
Proof. intros [-> | [t ->]]; [exact I | reflexivity]. Qed.

Lemma line_end_lookahead (tail : text) : line_end tail -> lookahead tail = true.
Proof.
  intros [-> | [t ->]]; [reflexivity|].
  unfold lookahead; change (LF =? LF)%N with true.
  now rewrite orb_true_r.
Qed.

Lemma slash_word_colon_cons (c : N) (r : text) :
  slash_word_colon (c :: r) =
  (c =? SLASH)%N &&
  match word_run r with
  | (_ :: _, c' :: _) => (c' =? COLON)%N
  | _ => false
  end.
Proof. reflexivity. Qed.

Lemma slash_word_colon_tail (a tail : text) :
  line_end tail -> slash_word_colon a = false ->
  slash_word_colon (a ++ tail) = false.
Proof.
  intros Ht; destruct a as [|c r].
  - intros _; destruct Ht as [-> | [t ->]]; reflexivity.
  - rewrite <- app_comm_cons, !slash_word_colon_cons.
    destruct (c =? SLASH)%N; [|reflexivity]; cbn [andb].
    destruct (word_run r) as [w rest] eqn:E.
    destruct (word_run_spec _ _ _ E) as [-> [Hw Hs]].
    destruct rest as [|x rest].
    + rewrite app_nil_r, word_run_app;
        [|exact Hw | now apply line_end_stops_word].
      intros _; destruct w; [reflexivity|].
      destruct Ht as [-> | [t ->]]; reflexivity.
    + rewrite <- app_assoc, word_run_app; [|exact Hw | exact Hs].
      simpl app; tauto.
Qed.

Lemma lookahead_cons (c : N) (r : text) :
  lookahead (c :: r) =
  ((c =? LF)%N && match r with g :: _ => is_glyph g | [] => false end)
  || slash_word_colon (c :: r) || (c =? LF)%N.
Proof. reflexivity. Qed.

Lemma lazy_dots_quiet (r tail : text) :
  line_end tail -> quiet r = true -> lazy_dots (r ++ tail) = (r, tail).
Proof.
  intros Ht; induction r as [|c r IH]; intros Hq.
  - cbn [app]; pose proof (line_end_lookahead _ Ht) as Hl.
    destruct tail; [reflexivity|]; cbn [lazy_dots]; now rewrite Hl.
  - cbn [quiet] in Hq; rewrite !andb_true_iff, !negb_true_iff in Hq.
    destruct Hq as [[Hc Hs] Hq].
    pose proof (slash_word_colon_tail _ _ Ht Hs) as Hs'.
    rewrite <- app_comm_cons in *.
    assert (Hl : lookahead (c :: r ++ tail) = false)
      by (now rewrite lookahead_cons, Hc, Hs').
    cbn [lazy_dots]; rewrite Hl, (IH Hq); reflexivity.
Qed.

Lemma plain_value_strip (v : text) : plain_value v = true -> strip v = v.
Proof.
  unfold plain_value; destruct v as [|c r]; [discriminate|].
  rewrite !andb_true_iff, !negb_true_iff; intros [[Hc Hl] _].
  unfold strip.
  assert (E : lstrip (c :: r) = c :: r) by (simpl; now rewrite Hc).
  rewrite E; unfold rstrip.
  destruct (@exists_last _ (c :: r) ltac:(discriminate)) as [l [x El]].
  rewrite El in *; rewrite last_last in Hl.
  rewrite rev_app_distr; simpl; rewrite Hl.
  simpl; now rewrite rev_involutive.
Qed.

Lemma line_match (d v tail : text) :
  is_token d = true -> plain_value v = true -> line_end tail ->
  match_here (d ++ [COLON; SPACE] ++ v ++ tail) = Some (d, v, tail).
Proof.
  intros Hd Hv Ht; unfold match_here.
  change (d ++ [COLON; SPACE] ++ v ++ tail)
    with (d ++ COLON :: SPACE :: v ++ tail).
  rewrite (group1_token d _ Hd).
  change (COLON =? COLON)%N with true; cbn iota.
  unfold plain_value in Hv; destruct v as [|c r]; [discriminate|].
  rewrite !andb_true_iff, !negb_true_iff in Hv.
  destruct Hv as [[Hc _] Hq].
  cbn [spaces_group2]; change (is_space SPACE) with true; cbn iota.
  simpl app; cbn [spaces_group2]; rewrite Hc.
  destruct r as [|c' r'].
  - simpl app.
    assert (G : group2 (c :: tail) = Some ([c], tail)).
    { unfold group2; pose proof (lazy_dots_quiet [] tail Ht eq_refl) as L.
      simpl app in L; now rewrite L. }
    destruct tail as [|x t]; [reflexivity|].
    cbn [spaces_group2]; exact G || (rewrite G; reflexivity).
  - simpl app.
    assert (G : group2 (c :: c' :: r' ++ tail) = Some (c :: c' :: r', tail)).
    { unfold group2; pose proof (lazy_dots_quiet (c' :: r') tail Ht Hq) as L.
      simpl app in L; now rewrite L. }
    rewrite G; reflexivity.
Qed.

Lemma CORE_TOKENS_keys_shape (k c : text) :
  Dict.get k CORE_TOKENS = Some c ->
  match k with
  | [] => False
  | [g] => is_glyph g = true
  | x :: _ => x <> SLASH
  end.
Proof.
  intros H; apply get_In in H.
  assert (G : forallb
                (fun kv : text * text =>
                   match fst kv with
                   | [] => false
                   | [g] => is_glyph g
                   | x :: _ => negb (x =? SLASH)%N
                   end) CORE_TOKENS = true)
    by (vm_compute; reflexivity).
  rewrite forallb_forall in G; specialize (G _ H); simpl in G.
  destruct k as [|x [|y k]]; [discriminate | exact G |].
  apply negb_true_iff, N.eqb_neq in G; exact G.
Qed.

Lemma resolve_canonical_key (k : text) :
  is_canonical k = true -> resolve_to_canonical k = k.
Proof.
  intros H; apply is_canonical_spec in H; destruct H as [w [-> [Hne _]]].
  unfold resolve_to_canonical.
  destruct (Dict.get (SLASH :: w) CORE_TOKENS) eqn:E; [|reflexivity].
  apply CORE_TOKENS_keys_shape in E.
  destruct w; [contradiction | now elim E].
Qed.

Lemma display_token_parses_back (use_emojis : bool) (k : text) :
  is_canonical k = true ->
  (use_emojis = true -> short_symbol k = true) ->
  is_token (display_token use_emojis k) = true /\
  resolve_to_canonical (display_token use_emojis k) = k.
Proof.
  intros Hk Hs.
  assert (Hplain : is_token k = true /\ resolve_to_canonical k = k).
  { split; [|now apply resolve_canonical_key].
    unfold is_token; destruct k as [|x [|y k]]; try discriminate; exact Hk. }
  unfold display_token; destruct use_emojis; [|exact Hplain].
  specialize (Hs eq_refl); unfold short_symbol in Hs.
  destruct (resolve_to_symbol k) as [sym|] eqn:E; [|exact Hplain].
  destruct sym as [|g [|g' sym]]; try discriminate.
  apply resolve_to_symbol_inverse in E.
  pose proof (CORE_TOKENS_keys_shape _ _ E) as Hg; simpl in Hg.
  split; [exact Hg|].
  unfold resolve_to_canonical; now rewrite E.
Qed.

Lemma join_cons (sep p q : text) (l : list text) :
  join sep (p :: q :: l) = p ++ sep ++ join sep (q :: l).
Proof. reflexivity. Qed.

Lemma findall_LF (s : text) : findall (LF :: s) = findall s.
Proof. apply findall_no_match, match_here_inert; reflexivity. Qed.

Lemma findall_format_message (use_emojis : bool) (T : Dict.t text) :
  forallb (fun kv => is_canonical (fst kv) && plain_value (snd kv)) T = true ->
  (use_emojis = true -> forallb (fun kv => short_symbol (fst kv)) T = true) ->
  findall (format_message T use_emojis) =
  map (fun kv => (display_token use_emojis (fst kv), snd kv)) T.
Proof.
  unfold format_message.
  induction T as [|[k v] T IH]; [reflexivity|].
  cbn [forallb fst snd]; rewrite !andb_true_iff; intros [[Hk Hv] HT] Hs.
  assert (Hs1 : use_emojis = true -> short_symbol k = true).
  { intros E; exact (proj1 (Hs E)). }
  assert (Hs2 : use_emojis = true ->
                forallb (fun kv => short_symbol (fst kv)) T = true).
  { intros E; exact (proj2 (Hs E)). }
  destruct (display_token_parses_back use_emojis k Hk Hs1) as [Hd _].
  specialize (IH HT Hs2).
  cbn [map fst snd]; destruct T as [|kv T].
  - cbn [map join]; unfold format_line; cbn [fst snd].
    pose proof (line_match _ v [] Hd Hv (or_introl eq_refl)) as Hm.
    rewrite app_nil_r in Hm.
    now rewrite (findall_match _ _ _ _ Hm).
  - cbn [map] in *; rewrite join_cons.
    set (rest := join [LF] (format_line use_emojis kv
                            :: map (format_line use_emojis) T)) in *.
    unfold format_line at 1; cbn [fst snd].
    pose proof (line_match _ v (LF :: rest) Hd Hv
                  (or_intror (ex_intro _ rest eq_refl))) as Hm.
    rewrite <- !app_assoc; change ([LF] ++ rest) with (LF :: rest).
    rewrite (findall_match _ _ _ _ Hm), findall_LF, IH; reflexivity.
Qed.

Lemma fold_set_distinct {A} (f : A -> text) (g : A -> text) (l : list A)
    (d : Dict.t text) :
  distinct (map f l) = true ->
  (forall a, In a l -> Dict.get (f a) d = None) ->
  fold_left (fun d a => Dict.set (f a) (g a) d) l d =
  d ++ map (fun a => (f a, g a)) l.
Proof.
  revert d; induction l as [|a l IH]; intros d; simpl.
  - intros _ _; now rewrite app_nil_r.
  - rewrite andb_true_iff, negb_true_iff; intros [Ha Hl] Hd.
    rewrite (set_fresh (f a) (g a) d) by (apply Hd; now left).
    rewrite IH; [now rewrite <- app_assoc | exact Hl |].
    intros b Hb; rewrite get_app_last, (Hd b) by now right.
    destruct (text_eqb (f b) (f a)) eqn:E; [|reflexivity].
    apply text_eqb_eq in E.
    assert (In (f a) (map f l)) by (rewrite <- E; now apply in_map).
    apply existsb_text_eqb_In in H; congruence.
Qed.

Lemma fold_left_over_map {A B C} (f : A -> B -> A) (h : C -> B)
    (l : list C) (a : A) :
  fold_left f (map h l) a = fold_left (fun a x => f a (h x)) l a.
Proof.
  revert a; induction l as [|x l IH]; intros a; simpl; [reflexivity|].
  apply IH.
Qed.

(** ** The scan, segment by segment *)

Lemma match_here_none (s : text) :
  (forall tok x rest, is_token tok = true -> s <> tok ++ COLON :: x :: rest) ->
  match_here s = None.
Proof.
  intros H; destruct (match_here s) as [[[tok v] rest]|] eqn:E;
    [|reflexivity].
  exfalso.
  destruct (match_here_spec _ _ _ _ E) as [ws [Es [Ht [_ Hv]]]].
  destruct (ws ++ v ++ rest) as [|x r'] eqn:Er.
  - apply app_eq_nil in Er; destruct Er as [_ Er].
    apply app_eq_nil in Er; destruct Er as [Er _]; contradiction.
  - apply (H tok x r' Ht); rewrite Es; reflexivity.
Qed.

Lemma value_boundary_lookahead (rest : text) :
  value_boundary rest = true -> lookahead rest = true.
Proof.
  destruct rest as [|c r]; [reflexivity|].
  unfold value_boundary; rewrite lookahead_cons.
  intros ->; reflexivity.
Qed.

Lemma value_boundary_ends (rest : text) :
  value_boundary rest = true -> ends_value rest.
Proof.
  destruct rest as [|c r]; [intros _; exact I|].
  unfold value_boundary; intros H; apply orb_true_iff in H.
  assert (G : c = LF \/ c = SLASH).
  { destruct H as [H|H].
    - apply andb_true_iff in H; destruct H as [H _].
      apply N.eqb_eq in H; now left.
    - rewrite slash_word_colon_cons in H.
      apply andb_true_iff in H; destruct H as [H _].
      apply N.eqb_eq in H; now right. }
  destruct G as [-> | ->]; split; first [reflexivity | discriminate].
Qed.

Lemma slash_word_colon_before (a tail : text) :
  a <> [] -> ends_value tail -> slash_word_colon a = false ->
  slash_word_colon (a ++ tail) = false.
Proof.
  intros Ha Ht; destruct a as [|c r]; [contradiction|].
  rewrite <- app_comm_cons, !slash_word_colon_cons.
  destruct (c =? SLASH)%N; [|reflexivity]; cbn [andb].
  destruct (word_run r) as [w rest] eqn:E.
  destruct (word_run_spec _ _ _ E) as [-> [Hw Hs]].
  destruct rest as [|x rest].
  - rewrite app_nil_r.
    assert (Hst : stops_word tail)
      by (destruct tail; [exact I | exact (proj1 Ht)]).
    rewrite word_run_app; [|exact Hw | exact Hst].
    intros _; destruct w; [reflexivity|].
    destruct tail as [|y tail]; [reflexivity|].
    apply N.eqb_neq; exact (proj2 Ht).
  - rewrite <- app_assoc, word_run_app; [|exact Hw | exact Hs].
    simpl app; tauto.
Qed.

Lemma lazy_dots_value (r tail : text) :
  quiet r = true -> lookahead tail = true -> ends_value tail ->
  lazy_dots (r ++ tail) = (r, tail).
Proof.
  intros Hq Hl Ht; induction r as [|c r IH].
  - cbn [app]; destruct tail; [reflexivity|].
    cbn [lazy_dots]; now rewrite Hl.
  - cbn [quiet] in Hq; rewrite !andb_true_iff, !negb_true_iff in Hq.
    destruct Hq as [[Hc Hs] Hq].
    pose proof (slash_word_colon_before (c :: r) tail
                  ltac:(discriminate) Ht Hs) as Hs'.
    rewrite <- app_comm_cons in *.
    assert (Hlk : lookahead (c :: r ++ tail) = false)
      by (now rewrite lookahead_cons, Hc, Hs').
    cbn [lazy_dots]; rewrite Hlk, (IH Hq); reflexivity.
Qed.

Lemma spaces_group2_greedy (ws s : text) (c : N) :
  forallb is_space ws = true -> is_space c = false ->
  spaces_group2 (ws ++ c :: s) = group2 (c :: s).
Proof.
  intros Hws Hc; induction ws as [|x ws IH].
  - cbn [app spaces_group2]; now rewrite Hc.
  - cbn [forallb] in Hws; apply andb_true_iff in Hws.
    destruct Hws as [Hx Hws]; specialize (IH Hws).
    cbn [app spaces_group2]; rewrite Hx, IH.
    unfold group2; now destruct (lazy_dots s).
Qed.

Lemma segment_match (tok ws r rest : text) (c : N) :
  is_token tok = true -> forallb is_space ws = true ->
  is_space c = false -> quiet r = true -> value_boundary rest = true ->
  match_here (tok ++ [COLON] ++ ws ++ (c :: r) ++ rest)
  = Some (tok, c :: r, rest).
Proof.
  intros Ht Hws Hc Hq Hb; unfold match_here.
  change (tok ++ [COLON] ++ ws ++ (c :: r) ++ rest)
    with (tok ++ COLON :: ws ++ c :: r ++ rest).
  rewrite (group1_token tok _ Ht).
  change (COLON =? COLON)%N with true; cbn iota.
  rewrite (spaces_group2_greedy ws (r ++ rest) c Hws Hc).
  unfold group2.
  now rewrite (lazy_dots_value r rest Hq (value_boundary_lookahead _ Hb)
                 (value_boundary_ends _ Hb)).
Qed.

Lemma findall_cons_inv (s tok v : text) (more : list (text * text)) :
  findall s = (tok, v) :: more ->
  exists pre ws rest,
    s = pre ++ tok ++ [COLON] ++ ws ++ v ++ rest /\
    is_token tok = true /\ forallb is_space ws = true /\ v <> [] /\
    forallb (fun suf => match match_here suf with
                        | Some _ => false
                        | None => true
                        end)
      (map (fun n => skipn n s) (seq 0 (List.length pre))) = true /\
    more = findall rest.
Proof.
  induction s as [|c r IH]; [discriminate|].
  destruct (match_here (c :: r)) as [[[tok' v'] rest]|] eqn:E.
  - rewrite (findall_match _ _ _ _ E); intros H; inversion H; subst.
    destruct (match_here_spec _ _ _ _ E) as [ws [Es [Ht [Hws Hv]]]].
    exists [], ws, rest; repeat split; auto.
  - rewrite (findall_no_match _ _ E); intros H.
    destruct (IH H) as [pre [ws [rest [-> [Ht [Hws [Hv [Hp Hm]]]]]]]].
    exists (c :: pre), ws, rest; repeat split; auto.
    cbn [List.length seq map forallb skipn]; rewrite E; cbn [andb].
    rewrite <- seq_shift, map_map; exact Hp.
Qed.

(** C2 (as amended).  The tokenizer scans the text from left to right, and
    a segment may begin at any position, not only at a line start.
    (1) A position where the text does not continue with a token (one code
    point of the symbol class, or a slash with one or more word characters:
    letters, digits, underscore), a colon and at least one more code point
    is passed over.  (2) Where it does, with the colon followed by optional
    whitespace and a value that has no line feed and no [/word:] after its
    first code point, and the value is followed by the end of the text, by
    a line feed and a symbol, or by a [/word:], the segment is that token
    with that value, and the scan resumes right after the value.  (3) The
    first pair found sits in the text as token, colon, optional whitespace
    and non-empty value in one piece, no earlier position matches, and the
    other pairs are those found in the rest of the text after it, so pairs
    come in text order; the same holds of every pair found.  (4) Every
    value entered in the mapping is trimmed at both ends.  (5) A prefix of
    the text in which no code point is a symbol or a slash is dropped
    without effect, and a text of such code points only gives the empty
    mapping. *)
Theorem tokenizer_segments (s : text) :
  (forall c r,
     (forall tok x rest, is_token tok = true ->
                         c :: r <> tok ++ COLON :: x :: rest) ->
     findall (c :: r) = findall r) /\
  (forall tok ws c r rest,
     is_token tok = true -> forallb is_space ws = true ->
     is_space c = false -> quiet r = true -> value_boundary rest = true ->
     findall (tok ++ [COLON] ++ ws ++ (c :: r) ++ rest)
     = (tok, c :: r) :: findall rest) /\
  (forall tok v more,
     findall s = (tok, v) :: more ->
     exists pre ws rest,
       s = pre ++ tok ++ [COLON] ++ ws ++ v ++ rest /\
       is_token tok = true /\ forallb is_space ws = true /\ v <> [] /\
       forallb (fun suf => match match_here suf with
                           | Some _ => false
                           | None => true
                           end)
         (map (fun n => skipn n s) (seq 0 (List.length pre))) = true /\
       more = findall rest) /\
  (forall tok v,
     In (tok, v) (findall s) ->
     is_token tok = true /\ v <> [] /\
     exists pre ws post,
       s = pre ++ tok ++ [COLON] ++ ws ++ v ++ post /\
       forallb is_space ws = true) /\
  (forall k x, In (k, x) (tokenize s) -> trimmed x) /\
  (forall pre, forallb inert pre = true ->
     findall (pre ++ s) = findall s /\ tokenize (pre ++ s) = tokenize s) /\
  (forallb inert s = true -> tokenize s = []).
Proof.
  split; [|split; [|split; [|split; [|split; [|split]]]]].
  - intros c r H; apply findall_no_match, match_here_none, H.
  - intros tok ws c r rest Ht Hws Hc Hq Hb.
    apply findall_match, segment_match; assumption.
  - intros tok v more; apply findall_cons_inv.
  - intros tok v H.
    destruct (findall_In _ _ _ H) as [pre [suf [rest [-> Hm]]]].
    destruct (match_here_spec _ _ _ _ Hm) as [ws [-> [Ht [Hws Hv]]]].
    split; [exact Ht | split; [exact Hv|]].
    exists pre, ws, rest; split; [reflexivity | exact Hws].
  - intros k x Hk; apply collect_tokens_values in Hk.
    destruct Hk as [m [_ ->]]; apply strip_trimmed.
  - intros p Hp; unfold tokenize.
    now rewrite (findall_inert_prefix p _ Hp).
  - intros Hs; unfold tokenize.
    rewrite <- (app_nil_r s), (findall_inert_prefix s [] Hs); reflexivity.
Qed.

Lemma tokenizer_segments_witness :
  findall (U "hi " ++ U "🚀: go" ++ [LF] ++ U "📚: x")
  = [(U "🚀", U "go"); (U "📚", U "x")].
Proof.
  destruct (tokenizer_segments []) as [_ [Hseg [_ [_ [_ [Hpre _]]]]]].
  assert (H2 : findall (U "📚: x") = [(U "📚", U "x")]).
  { exact (Hseg (U "📚") (U " ") 120%N [] [] eq_refl eq_refl eq_refl
             eq_refl eq_refl). }
  assert (H1 : findall (U "🚀: go" ++ [LF] ++ U "📚: x")
               = (U "🚀", U "go") :: findall (LF :: U "📚: x")).
  { exact (Hseg (U "🚀") (U " ") 103%N (U "o") (LF :: U "📚: x")
             eq_refl eq_refl eq_refl eq_refl eq_refl). }
  destruct (tokenizer_segments (U "🚀: go" ++ [LF] ++ U "📚: x"))
    as [_ [_ [_ [_ [_ [Hp _]]]]]].
  rewrite (proj1 (Hp (U "hi ") eq_refl)), H1.
  destruct (tokenizer_segments (U "📚: x")) as [_ [_ [_ [_ [_ [Hp2 _]]]]]].
  change (LF :: U "📚: x") with ([LF] ++ U "📚: x").
  rewrite (proj1 (Hp2 [LF] eq_refl)), H2; reflexivity.
Defined.

(** C4 (as amended).  A mapping comes back unchanged, entries and order,
    from formatting and tokenizing, with symbols or without, provided its
    keys are distinct canonical [/word] identifiers, its values are
    non-empty single-line strings without whitespace at either end and
    without a [/word:] after their first character, and, when symbols are
    preferred, no key's registered symbol is longer than one code point. *)
Theorem format_tokenize_round_trip (T : Dict.t text) (use_emojis : bool) :
  distinct (Dict.keys T) = true ->
  forallb (fun kv => is_canonical (fst kv) && plain_value (snd kv)) T = true ->
  (use_emojis = true -> forallb (fun kv => short_symbol (fst kv)) T = true) ->
  tokenize (format_message T use_emojis) = T.
Proof.
  intros Hd HT Hs; unfold tokenize, collect_tokens.
  rewrite (findall_format_message use_emojis T HT Hs).
  assert (E : forall kv, In kv T ->
            (resolve_to_canonical (display_token use_emojis (fst kv)),
             strip (snd kv)) = kv).
  { intros [k v] Hin; cbn [fst snd].
    rewrite forallb_forall in HT; specialize (HT _ Hin); cbn [fst snd] in HT.
    apply andb_true_iff in HT; destruct HT as [Hk Hv].
    assert (Hs1 : use_emojis = true -> short_symbol k = true).
    { intros Eu; specialize (Hs Eu); rewrite forallb_forall in Hs.
      exact (Hs _ Hin). }
    destruct (display_token_parses_back use_emojis k Hk Hs1) as [_ ->].
    now rewrite plain_value_strip. }
  pose (f := fun kv : text * text =>
               resolve_to_canonical (display_token use_emojis (fst kv))).
  pose (g := fun kv : text * text => strip (snd kv)).
  assert (E2 :
    fold_left
      (fun tokens m =>
         Dict.set (resolve_to_canonical (fst m)) (strip (snd m)) tokens)
      (map (fun kv => (display_token use_emojis (fst kv), snd kv)) T)
      Dict.empty
    = fold_left (fun d a => Dict.set (f a) (g a) d) T Dict.empty)
    by apply fold_left_over_map.
  rewrite E2, (fold_set_distinct f g).
  - cbn [Dict.empty app]; rewrite <- (map_id T) at 2.
    apply map_ext_in; exact E.
  - rewrite <- Hd; unfold Dict.keys; f_equal.
    apply map_ext_in; intros kv Hin; unfold f.
    now rewrite <- (E kv Hin) at 2.
  - reflexivity.
Qed.

Lemma format_tokenize_round_trip_witness :
  let T := [(U "/act", U "ship_v1"); (U "/focus", U "a b: c")] in
  tokenize (format_message T true) = T.
Proof.
  cbv zeta; apply format_tokenize_round_trip.
  - vm_compute; reflexivity.
  - vm_compute; reflexivity.
  - intros _; vm_compute; reflexivity.
Defined.

(** C4 (counterexample).  The value of this mapping has a single line, which
    starts with a plain letter, yet the [/word:] further along that line
    opens a second segment when the formatted text is parsed back, with
    symbols or without. *)
Lemma round_trip_breaks_on_inline_token :
  let T := [(U "/act", U "a /b: c")] in
  forallb (fun kv => Spec.segment_free (snd kv)) T = true /\
  tokenize (format_message T false) = [(U "/act", U "a"); (U "/b", U "c")] /\
  tokenize (format_message T false) <> T /\
  tokenize (format_message T true) <> T.
Proof.
  cbv zeta.
  split; [vm_compute; reflexivity|].
  split; [vm_compute; reflexivity|].
  split; vm_compute; discriminate.
Qed.


(** * Further properties of the code *)

(** ** Registry and parsed keys *)

Lemma CORE_TOKENS_values_canonical (k c : text) :
  Dict.get k CORE_TOKENS = Some c -> is_canonical c = true.
Proof.
  intros H; apply get_In in H.
  assert (G : forallb (fun kv : text * text => is_canonical (snd kv))
                CORE_TOKENS = true) by (vm_compute; reflexivity).
  rewrite forallb_forall in G; exact (G _ H).
Qed.

Lemma canonical_is_token (k : text) : is_canonical k = true -> is_token k = true.
Proof.
  intros H; unfold is_token.
  destruct k as [|x [|y k]]; try discriminate; exact H.
Qed.

Lemma resolve_stable (token_raw : text) :
  resolve_to_canonical (resolve_to_canonical token_raw) =
  resolve_to_canonical token_raw.
Proof.
  destruct (Dict.get token_raw CORE_TOKENS) as [c|] eqn:E.
  - assert (R : resolve_to_canonical token_raw = c)
      by (unfold resolve_to_canonical; now rewrite E).
    rewrite R; apply resolve_canonical_key.
    apply (CORE_TOKENS_values_canonical _ _ E).
  - assert (R : resolve_to_canonical token_raw = token_raw)
      by (unfold resolve_to_canonical; now rewrite E).
    now rewrite !R.
Qed.

Lemma resolved_not_registered (token_raw : text) :
  Dict.get (resolve_to_canonical token_raw) CORE_TOKENS = None.
Proof.
  pose proof (resolve_stable token_raw) as Hi.
  unfold resolve_to_canonical at 1 in Hi.
  destruct (Dict.get (resolve_to_canonical token_raw) CORE_TOKENS)
    as [c|] eqn:E; [|reflexivity].
  exfalso.
  pose proof (CORE_TOKENS_values_canonical _ _ E) as Hc.
  pose proof (CORE_TOKENS_keys_shape _ _ E) as Hk.
  rewrite <- Hi in Hk.
  apply is_canonical_spec in Hc; destruct Hc as [w [-> [Hne _]]].
  destruct w; [contradiction | now elim Hk].
Qed.

(** X1.  Resolving is idempotent: what [CORE_TOKENS.get(t, t)] returns is
    never itself a registered symbol, so resolving it again changes
    nothing; and a canonical identifier that has a symbol is never the
    symbol of something else. *)
Theorem resolve_to_canonical_idempotent (token_raw : text) :
  resolve_to_canonical (resolve_to_canonical token_raw) =
  resolve_to_canonical token_raw /\
  Dict.get (resolve_to_canonical token_raw) CORE_TOKENS = None /\
  (forall sym, resolve_to_symbol token_raw = Some sym ->
               resolve_to_canonical token_raw = token_raw).
Proof.
  split; [apply resolve_stable|].
  split; [apply resolved_not_registered|].
  intros sym H; apply resolve_to_symbol_inverse in H.
  apply resolve_canonical_key, (CORE_TOKENS_values_canonical _ _ H).
Qed.

Lemma resolve_token_is_token (tok : text) :
  is_token tok = true -> is_token (resolve_to_canonical tok) = true.
Proof.
  intros H; unfold resolve_to_canonical.
  destruct (Dict.get tok CORE_TOKENS) as [c|] eqn:E; [|exact H].
  apply canonical_is_token, (CORE_TOKENS_values_canonical _ _ E).
Qed.

Lemma keys_set (k k' v : text) (d : Dict.t text) :
  In k (Dict.keys (Dict.set k' v d)) -> k = k' \/ In k (Dict.keys d).
Proof.
  unfold Dict.keys; induction d as [|[k0 v0] d IH]; simpl.
  - intros [H|[]]; auto.
  - destruct (text_eqb k' k0); simpl.
    + intros [H|H]; auto.
    + intros [H|H]; [auto | destruct (IH H); auto].
Qed.

Lemma collect_tokens_keys (l : list (text * text)) (k : text) :
  In k (Dict.keys (collect_tokens l)) ->
  exists m, In m l /\ k = resolve_to_canonical (fst m).
Proof.
  unfold collect_tokens.
  assert (G : forall d,
    In k (Dict.keys
            (fold_left
               (fun tokens m =>
                  Dict.set (resolve_to_canonical (fst m)) (strip (snd m))
                    tokens) l d)) ->
    In k (Dict.keys d) \/ exists m, In m l /\ k = resolve_to_canonical (fst m)).
  { induction l as [|m l IH]; intros d; simpl; [auto|].
    intros H; destruct (IH _ H) as [H1 | [m' [H1 H2]]].
    - apply keys_set in H1; destruct H1 as [-> | H1]; [right | left]; eauto.
    - right; eauto. }
  intros H; destruct (G _ H) as [[] | H1]; exact H1.
Qed.

Lemma findall_tokens (s tok v : text) :
  In (tok, v) (findall s) -> is_token tok = true.
Proof.
  intros H; destruct (findall_In _ _ _ H) as [pre [suf [rest [_ Hm]]]].
  destruct (match_here_spec _ _ _ _ Hm) as [ws [_ [Ht _]]]; exact Ht.
Qed.



(** ** Repeated declarations *)

Lemma keys_set_eq (k v : text) (d : Dict.t text) :
  Dict.keys (Dict.set k v d) =
  if Dict.mem k d then Dict.keys d else Dict.keys d ++ [k].
Proof.
  unfold Dict.keys, Dict.mem; induction d as [|[k0 v0] d IH]; simpl.
  - reflexivity.
  - destruct (text_eqb k k0) eqn:E; simpl; [reflexivity|].
    rewrite IH; now destruct (Dict.get k d).
Qed.

Lemma distinct_snoc (l : list text) (k : text) :
  distinct l = true -> ~ In k l -> distinct (l ++ [k]) = true.
Proof.
  induction l as [|x l IH]; simpl; [reflexivity|].
  rewrite !andb_true_iff, !negb_true_iff; intros [Hx Hl] Hk.
  split; [|apply IH; tauto].
  destruct (existsb (text_eqb x) (l ++ [k])) eqn:E; [|reflexivity].
  apply existsb_text_eqb_In, in_app_or in E.
  destruct E as [E|[E|[]]].
  - apply existsb_text_eqb_In in E; congruence.
  - subst; tauto.
Qed.

Lemma distinct_set (k v : text) (d : Dict.t text) :
  distinct (Dict.keys d) = true -> distinct (Dict.keys (Dict.set k v d)) = true.
Proof.
  intros H; rewrite keys_set_eq.
  destruct (Dict.mem k d) eqn:E; [exact H|].
  apply distinct_snoc; [exact H|].
  apply get_None_notin; unfold Dict.mem in E.
  now destruct (Dict.get k d).
Qed.

Lemma distinct_collect_tokens (l : list (text * text)) :
  distinct (Dict.keys (collect_tokens l)) = true.
Proof.
  unfold collect_tokens.
  assert (G : forall d : Dict.t text, distinct (Dict.keys d) = true ->
    distinct (Dict.keys
      (fold_left
         (fun tokens m =>
            Dict.set (resolve_to_canonical (fst m)) (strip (snd m)) tokens)
         l d)) = true).
  { induction l as [|m l IH]; intros d Hd; simpl; [exact Hd|].
    apply IH, distinct_set, Hd. }
  apply G; reflexivity.
Qed.


Example tokenize_symbol_then_canonical :
  tokenize (U "🚀: first" ++ [LF] ++ U "📚: topic" ++ [LF] ++ U "/act: second")
  = [(U "/act", U "second"); (U "/focus", U "topic")].
Proof. vm_compute; reflexivity. Qed.

(** ** Values stay on one line *)

Lemma lazy_dots_no_LF (s v rest : text) :
  lazy_dots s = (v, rest) -> ~ In LF v.
Proof.
  revert v rest; induction s as [|c s IH]; intros v rest; cbn [lazy_dots].
  - intros H; inversion H; subst; intros [].
  - destruct (lookahead (c :: s)) eqn:El.
    + intros H; inversion H; subst; intros [].
    + destruct (lazy_dots s) as [v' rest'] eqn:E.
      intros H; inversion H; subst; intros [Hc|Hin].
      * subst c; rewrite lookahead_cons in El.
        change (LF =? LF)%N with true in El.
        rewrite orb_true_r in El; discriminate.
      * exact (IH _ _ eq_refl Hin).
Qed.

Lemma spaces_group2_None (s : text) : spaces_group2 s = None -> s = [].
Proof.
  destruct s as [|c r]; [reflexivity|].
  cbn [spaces_group2].
  assert (G : group2 (c :: r) <> None).
  { unfold group2; destruct (lazy_dots r); discriminate. }
  destruct (is_space c); [destruct (spaces_group2 r)|];
    intros H; try discriminate; contradiction.
Qed.

Lemma space_LF : is_space LF = true.
Proof. reflexivity. Qed.

Lemma spaces_group2_value (s v rest : text) :
  spaces_group2 s = Some (v, rest) ->
  (exists c, v = [c] /\ is_space c = true) \/ ~ In LF v.
Proof.
  revert v rest; induction s as [|c s IH]; intros v rest;
    cbn [spaces_group2]; [discriminate|].
  destruct (is_space c) eqn:Ec.
  - destruct (spaces_group2 s) as [[v' rest']|] eqn:E.
    + intros H; inversion H; subst; exact (IH _ _ eq_refl).
    + apply spaces_group2_None in E; subst s.
      unfold group2; cbn [lazy_dots].
      intros H; inversion H; subst; left; eauto.
  - unfold group2; destruct (lazy_dots s) as [v' rest'] eqn:E.
    intros H; inversion H; subst; right; intros [Hc|Hin].
    + subst c; rewrite space_LF in Ec; discriminate.
    + exact (lazy_dots_no_LF _ _ _ E Hin).
Qed.

Lemma match_here_value (s tok v rest : text) :
  match_here s = Some (tok, v, rest) ->
  (exists c, v = [c] /\ is_space c = true) \/ ~ In LF v.
Proof.
  unfold match_here.
  destruct (group1 s) as [[tok' [|c r]]|]; try discriminate.
  destruct (c =? COLON)%N; [|discriminate].
  destruct (spaces_group2 r) as [[v' rest']|] eqn:E; [|discriminate].
  intros H; inversion H; subst; exact (spaces_group2_value _ _ _ E).
Qed.

Lemma In_lstrip (x : N) (s : text) : In x (lstrip s) -> In x s.
Proof.
  induction s as [|c s IH]; simpl; [tauto|].
  destruct (is_space c); [auto|]; tauto.
Qed.

Lemma In_strip (x : N) (s : text) : In x (strip s) -> In x s.
Proof.
  unfold strip, rstrip; intros H.
  apply In_lstrip; apply in_rev in H.
  apply In_lstrip in H; now apply in_rev in H.
Qed.

(** X4.  No value of a parsed mapping contains a line feed: a declared
    value stops at the end of its line whatever the next line starts with
    (a value that begins on a later line because only whitespace followed
    the colon stops at the end of that line). *)
Theorem tokenize_values_single_line (s k x : text) :
  In (k, x) (tokenize s) -> ~ In LF x.
Proof.
  intros H; apply collect_tokens_values in H.
  destruct H as [[tok v] [Hin ->]]; cbn [snd].
  destruct (findall_In _ _ _ Hin) as [pre [suf [rest [_ Hm]]]].
  destruct (match_here_value _ _ _ _ Hm) as [[c [-> Hc]] | Hv].
  - rewrite (strip_blank c Hc); intros [].
  - intros Hx; apply Hv, (In_strip _ _ Hx).
Qed.

Lemma tokenize_values_single_line_witness :
  ~ In LF (U "a").
Proof.
  apply (tokenize_values_single_line
           (U "🚀: a" ++ [LF] ++ U "b") (U "/act") (U "a")).
  vm_compute; left; reflexivity.
Defined.

(** ** Validity of parsed messages *)

Lemma validate_message_verdict (tokens : Dict.t text) :
  fst (validate_message tokens []) =
    negb (existsb is_error (snd (validate_message tokens []))) /\
  (List.length (snd (validate_message tokens [])) <= 3)%nat /\
  (Dict.mem (U "/act") tokens = false ->
   fst (validate_message tokens []) = true).
Proof.
  unfold validate_message; cbn [existsb].
  destruct (Dict.mem (U "/act") tokens), (Dict.mem (U "/intent") tokens),
    (Dict.mem (U "/context") tokens), (Dict.mem (U "/query") tokens),
    (Dict.mem (U "/resolve") tokens), (Dict.mem (U "/deliverable") tokens);
    cbn [fst snd negb orb andb app];
    (split; [vm_compute; reflexivity | split; [cbn; lia | intros H;
       first [reflexivity | discriminate H]]]).
Qed.

(** X5.  A parsed message is valid exactly when none of its diagnostics is
    one of the two errors (the deliverable warning alone never makes it
    invalid); it carries at most three diagnostics; and a message that does
    not declare an action is always valid. *)
Theorem parse_message_valid_iff_no_error (now s who : text)
    (kind : AgentType) :
  let m := parse_message now s who kind in
  is_valid m = negb (existsb is_error (validation_errors m)) /\
  (List.length (validation_errors m) <= 3)%nat /\
  (Dict.mem (U "/act") (tokens m) = false -> is_valid m = true).
Proof.
  cbv zeta; unfold parse_message.
  pose proof (validate_message_verdict (tokenize s)) as H.
  destruct (validate_message (tokenize s) []) as [ok errs].
  exact H.
Qed.

(** ** The initialization message *)

(** X6.  Whatever the topic, participants, context and intent, the mapping
    [initialize_conversation] builds has the same nine keys in the same
    order, a non-empty /context and a non-empty /intent (an empty argument
    is replaced by the default), and would pass the validator with no
    diagnostic at all, so marking the message valid without validating it
    loses nothing; the mapping becomes the active context. *)
Theorem initialize_conversation_tokens (now topic : text)
    (participants : list text) (context intent : text) (e : Engine) :
  let r := initialize_conversation now topic participants context intent e in
  Dict.keys (tokens (fst r)) = init_keys /\
  validate_message (tokens (fst r)) [] = (true, []) /\
  (exists c, Dict.get (U "/context") (tokens (fst r)) = Some c /\ c <> []) /\
  (exists i, Dict.get (U "/intent") (tokens (fst r)) = Some i /\ i <> []) /\
  Dict.get (U "/focus") (tokens (fst r)) = Some topic /\
  active_context (snd r) = tokens (fst r) /\
  conversation_history (snd r) = conversation_history e ++ [fst r].
Proof.
  cbv zeta.
  change (tokens (fst (initialize_conversation now topic participants
                         context intent e)))
    with (init_tokens topic participants context intent).
  split; [reflexivity|].
  split; [reflexivity|].
  split.
  { exists (str_or context (U "Multi-agent dialogue on " ++ topic)).
    split; [reflexivity|].
    destruct context; [|discriminate].
    cbn [str_or]; vm_compute; discriminate. }
  split.
  { exists (str_or intent (U "Collaborative exploration and understanding")).
    split; [reflexivity|].
    destruct intent; [|discriminate].
    cbn [str_or]; vm_compute; discriminate. }
  repeat split.
Qed.

(** ** Parsing the canonical rendering of a parsed mapping *)

Lemma slash_word_colon_mono (a b : text) :
  slash_word_colon a = true -> slash_word_colon (a ++ b) = true.
Proof.
  destruct a as [|c r]; [discriminate|].
  rewrite <- app_comm_cons, !slash_word_colon_cons.
  destruct (c =? SLASH)%N; [|discriminate]; cbn [andb].
  destruct (word_run r) as [w rest] eqn:E.
  destruct (word_run_spec _ _ _ E) as [-> [Hw _]].
  destruct w as [|x w]; [discriminate|].
  destruct rest as [|c' rest]; [discriminate|].
  intros Hc; apply N.eqb_eq in Hc; subst c'.
  rewrite <- app_assoc, word_run_app; [|exact Hw | reflexivity].
  reflexivity.
Qed.

Lemma lazy_dots_prefix_quiet (s v rest p q : text) :
  lazy_dots s = (v, rest) -> v = p ++ q -> quiet p = true.
Proof.
  revert v rest p q; induction s as [|c s IH]; intros v rest p q;
    cbn [lazy_dots].
  - intros H E; inversion H; subst.
    symmetry in H1; apply app_eq_nil in H1; destruct H1 as [-> _].
    reflexivity.
  - destruct (lookahead (c :: s)) eqn:El.
    + intros H E; inversion H; subst.
      symmetry in H1; apply app_eq_nil in H1; destruct H1 as [-> _].
      reflexivity.
    + destruct (lazy_dots s) as [v' rest'] eqn:E.
      intros H Ev; injection H as Hv Hr.
      rewrite <- Hv in Ev; clear Hv.
      destruct p as [|x p]; [reflexivity|].
      simpl in Ev; injection Ev as Hx Hv'; subst x.
      rewrite lookahead_cons in El.
      apply orb_false_iff in El; destruct El as [El Hc].
      apply orb_false_iff in El; destruct El as [_ Hs].
      cbn [quiet]; rewrite Hc; cbn [negb andb].
      rewrite (IH _ _ p q eq_refl Hv'), andb_true_r.
      apply negb_true_iff.
      destruct (slash_word_colon (c :: p)) eqn:Ep; [|reflexivity].
      apply (slash_word_colon_mono _ (q ++ rest')) in Ep.
      apply lazy_dots_spec in E.
      rewrite <- app_comm_cons, app_assoc, <- Hv', <- E in Ep; congruence.
Qed.

Lemma lstrip_suffix (s : text) : exists ws, s = ws ++ lstrip s.
Proof.
  induction s as [|c s [ws IH]]; [exists []; reflexivity|].
  simpl; destruct (is_space c).
  - exists (c :: ws); simpl; now f_equal.
  - exists []; reflexivity.
Qed.

Lemma rstrip_prefix (s : text) : exists ws, s = rstrip s ++ ws.
Proof.
  unfold rstrip; destruct (lstrip_suffix (rev s)) as [ws E].
  exists (rev ws).
  rewrite <- rev_app_distr, <- E; symmetry; apply rev_involutive.
Qed.

Lemma trimmed_ends (c : N) (r : text) :
  trimmed (c :: r) ->
  is_space c = false /\ is_space (last (c :: r) c) = false.
Proof.
  intros [Hl Hr]; split.
  - simpl in Hl; destruct (is_space c) eqn:Ec; [|reflexivity].
    destruct (lstrip_suffix r) as [ws E].
    apply (f_equal (@List.length N)) in E.
    rewrite Hl, length_app in E; simpl in E; lia.
  - unfold rstrip in Hr.
    destruct (@exists_last _ (c :: r) ltac:(discriminate)) as [l [x El]].
    rewrite El in *; rewrite last_last.
    rewrite rev_app_distr in Hr; simpl in Hr.
    destruct (is_space x) eqn:Ex; [|reflexivity].
    destruct (lstrip_suffix (rev l)) as [ws E].
    apply (f_equal (@rev N)) in Hr; rewrite rev_involutive in Hr.
    apply (f_equal (@List.length N)) in Hr.
    apply (f_equal (@List.length N)) in E.
    rewrite length_rev, length_app in Hr; rewrite length_app in E.
    rewrite length_rev in E; simpl in Hr; lia.
Qed.

Lemma spaces_group2_shape (s v rest : text) :
  spaces_group2 s = Some (v, rest) ->
  (exists c, v = [c] /\ is_space c = true) \/
  (exists c v' s', v = c :: v' /\ is_space c = false /\
                   lazy_dots s' = (v', rest)).
Proof.
  revert v rest; induction s as [|c s IH]; intros v rest;
    cbn [spaces_group2]; [discriminate|].
  destruct (is_space c) eqn:Ec.
  - destruct (spaces_group2 s) as [[v' rest']|] eqn:E.
    + intros H; inversion H; subst; exact (IH _ _ eq_refl).
    + apply spaces_group2_None in E; subst s.
      unfold group2; cbn [lazy_dots].
      intros H; inversion H; subst; left; eauto.
  - unfold group2; destruct (lazy_dots s) as [v' rest'] eqn:E.
    intros H; inversion H; subst; right; exists c, v', s; auto.
Qed.

Lemma match_here_plain (s tok v rest : text) :
  match_here s = Some (tok, v, rest) -> strip v <> [] ->
  plain_value (strip v) = true.
Proof.
  unfold match_here.
  destruct (group1 s) as [[tok' [|c r]]|]; try discriminate.
  destruct (c =? COLON)%N; [|discriminate].
  destruct (spaces_group2 r) as [[v0 rest0]|] eqn:E; [|discriminate].
  intros H Hne; inversion H; subst.
  destruct (spaces_group2_shape _ _ _ E)
    as [[x [-> Hx]] | [x [v' [s' [-> [Hx Hl]]]]]].
  - rewrite (strip_blank x Hx) in Hne; contradiction.
  - assert (Es : strip (x :: v') = x :: rstrip v').
    { unfold strip; simpl lstrip; rewrite Hx.
      now apply rstrip_cons_nonspace. }
    pose proof (strip_trimmed (x :: v')) as Ht; rewrite Es in *.
    destruct (trimmed_ends _ _ Ht) as [H1 H2].
    unfold plain_value; rewrite H1, H2; cbn [negb andb].
    destruct (rstrip_prefix v') as [ws Ews].
    exact (lazy_dots_prefix_quiet _ _ _ _ _ Hl Ews).
Qed.

Lemma findall_lines (L : list (text * text)) (tail : text) :
  (forall d v, In (d, v) L -> is_token d = true /\ plain_value v = true) ->
  line_end tail ->
  findall (join [LF] (map (fun kv => fst kv ++ [COLON; SPACE] ++ snd kv) L)
           ++ tail)
  = L ++ findall tail.
Proof.
  intros HL Ht; induction L as [|[d v] L IH]; [reflexivity|].
  destruct (HL d v (or_introl eq_refl)) as [Hd Hv].
  assert (HL' : forall d v, In (d, v) L ->
                  is_token d = true /\ plain_value v = true)
    by (intros; apply HL; now right).
  specialize (IH HL').
  destruct L as [|kv L].
  - cbn [map join fst snd].
    pose proof (line_match d v tail Hd Hv Ht) as Hm.
    replace ((d ++ [COLON; SPACE] ++ v) ++ tail)
      with (d ++ [COLON; SPACE] ++ v ++ tail)
      by (now rewrite <- !app_assoc).
    now rewrite (findall_match _ _ _ _ Hm).
  - cbn [map] in *; rewrite join_cons; cbn [fst snd].
    pose (rest := join [LF]
                    ((fst kv ++ [COLON; SPACE] ++ snd kv)
                     :: map (fun kv : text * text =>
                               fst kv ++ [COLON; SPACE] ++ snd kv) L)).
    change (findall (rest ++ tail) = (kv :: L) ++ findall tail) in IH.
    change (findall (((d ++ [COLON; SPACE] ++ v) ++ [LF] ++ rest) ++ tail)
            = ((d, v) :: kv :: L) ++ findall tail).
    pose proof (line_match d v (LF :: rest ++ tail) Hd Hv
                  (or_intror (ex_intro _ (rest ++ tail) eq_refl))) as Hm.
    replace (((d ++ [COLON; SPACE] ++ v) ++ [LF] ++ rest) ++ tail)
      with (d ++ [COLON; SPACE] ++ v ++ LF :: rest ++ tail)
      by (now rewrite <- !app_assoc).
    rewrite (findall_match _ _ _ _ Hm), findall_LF, IH; reflexivity.
Qed.

Lemma tokenize_resolved_lines (T : Dict.t text) :
  distinct (Dict.keys T) = true ->
  (forall k v, In (k, v) T ->
     is_token k = true /\ resolve_to_canonical k = k /\
     plain_value v = true) ->
  tokenize (format_message T false) = T.
Proof.
  intros Hd HT; unfold tokenize, format_message.
  change (map (format_line false) T)
    with (map (fun kv : text * text => fst kv ++ [COLON; SPACE] ++ snd kv) T).
  rewrite <- (app_nil_r (join _ _)), findall_lines;
    [|intros d v Hin; destruct (HT d v Hin) as [? [? ?]]; auto
     |now left].
  change (findall []) with (@nil (text * text)); rewrite app_nil_r.
  unfold collect_tokens.
  rewrite (fold_set_distinct (fun m => resolve_to_canonical (fst m))
             (fun m => strip (snd m))).
  - cbn [Dict.empty app]; rewrite <- (map_id T) at 2.
    apply map_ext_in; intros [k v] Hin; cbn [fst snd].
    destruct (HT k v Hin) as [_ [-> Hv]].
    now rewrite plain_value_strip.
  - rewrite <- Hd; unfold Dict.keys; f_equal.
    apply map_ext_in; intros [k v] Hin; cbn [fst].
    now destruct (HT k v Hin) as [_ [-> _]].
  - reflexivity.
Qed.

(** X7.  Parsing is stable under the canonical rendering: when no value of
    the mapping parsed from a text is empty, formatting that mapping
    without symbols and parsing the result gives the same mapping again,
    keys, values and order. *)
Theorem reparse_canonical_rendering (s : text) :
  (forall k x, In (k, x) (tokenize s) -> x <> []) ->
  tokenize (format_message (tokenize s) false) = tokenize s.
Proof.
  intros Hne; apply tokenize_resolved_lines.
  - apply distinct_collect_tokens.
  - intros k x Hin.
    assert (Hk : In k (Dict.keys (tokenize s)))
      by (apply (in_map fst) in Hin; exact Hin).
    apply collect_tokens_keys in Hk; destruct Hk as [[tok v] [Hm ->]].
    cbn [fst]; split; [|split].
    + apply resolve_token_is_token, (findall_tokens _ _ _ Hm).
    + apply resolve_stable.
    + pose proof (Hne _ _ Hin) as Hx.
      apply collect_tokens_values in Hin.
      destruct Hin as [[tok' v'] [Hm' ->]]; cbn [snd] in *.
      destruct (findall_In _ _ _ Hm') as [pre [suf [rest [_ Hh]]]].
      exact (match_here_plain _ _ _ _ Hh Hx).
Qed.

Lemma reparse_canonical_rendering_witness :
  let s := U "hi 🚀: go now" ++ [LF] ++ U "️: x /focus: parsers " in
  tokenize (format_message (tokenize s) false) = tokenize s.
Proof.
  cbv zeta; apply reparse_canonical_rendering.
  intros k x H; vm_compute in H.
  destruct H as [H|[H|[H|[]]]]; inversion H; discriminate.
Defined.

(** ** Parsing the initialization message back *)

Lemma tokens_parse_message (now s who : text) (kind : AgentType) :
  tokens (parse_message now s who kind) = tokenize s.
Proof.
  unfold parse_message; destruct (validate_message (tokenize s) []);
    reflexivity.
Qed.

Lemma join_snoc (sep x : text) (l : list text) :
  l <> [] -> join sep (l ++ [x]) = join sep l ++ sep ++ x.
Proof.
  induction l as [|a l IH]; [contradiction|]; intros _.
  destruct l as [|b l]; [reflexivity|].
  change ((a :: b :: l) ++ [x]) with (a :: b :: (l ++ [x])).
  rewrite !join_cons.
  change (b :: l ++ [x]) with ((b :: l) ++ [x]).
  rewrite IH by discriminate.
  now rewrite <- !app_assoc.
Qed.

Lemma reparse_init_lines (mind topic c i : text) :
  plain_value mind = true -> plain_value topic = true ->
  plain_value c = true -> plain_value i = true ->
  let T8 :=
    [ (U "/mind", mind); (U "/focus", topic); (U "/context", c);
      (U "/intent", i); (U "/deliverable", U "structured_dialogue");
      (U "/timeline", U "ongoing"); (U "/channel", U "text_and_voice");
      (U "/norm", U "respectful_dialogue, ng_protocol_adherence") ] in
  let g := (U "/govern", U "consensus_seeking") in
  tokenize (format_message (T8 ++ [g]) true)
  = T8 ++ [([0xFE0F]%N, U "consensus_seeking")].
Proof.
  intros Hm Ht Hc Hi T8 g.
  pose (L8 :=
    [ (U "🧠", mind); (U "📚", topic); (U "/context", c);
      (U "💡", i); (U "📦", U "structured_dialogue");
      (U "⏰", U "ongoing"); (U "📡", U "text_and_voice");
      (U "📋", U "respectful_dialogue, ng_protocol_adherence") ]).
  assert (D : forall k s, display_token true k = s ->
                forall v, format_line true (k, v) = s ++ [COLON; SPACE] ++ v)
    by (intros k s <- v; reflexivity).
  assert (E8 : map (format_line true) T8
               = map (fun kv : text * text =>
                        fst kv ++ [COLON; SPACE] ++ snd kv) L8).
  { unfold T8, L8; cbn [map fst snd].
    rewrite (D (U "/mind") (U "🧠")) by (vm_compute; reflexivity).
    rewrite (D (U "/focus") (U "📚")) by (vm_compute; reflexivity).
    rewrite (D (U "/context") (U "/context")) by (vm_compute; reflexivity).
    rewrite (D (U "/intent") (U "💡")) by (vm_compute; reflexivity).
    rewrite (D (U "/deliverable") (U "📦")) by (vm_compute; reflexivity).
    rewrite (D (U "/timeline") (U "⏰")) by (vm_compute; reflexivity).
    rewrite (D (U "/channel") (U "📡")) by (vm_compute; reflexivity).
    rewrite (D (U "/norm") (U "📋")) by (vm_compute; reflexivity).
    reflexivity. }
  unfold tokenize, format_message.
  rewrite map_app.
  change (map (format_line true) [g]) with [format_line true g].
  rewrite E8, join_snoc by discriminate.
  change ([LF] ++ format_line true g) with (LF :: format_line true g).
  rewrite findall_lines;
    [| | right; eexists; reflexivity].
  - assert (Eg : findall (LF :: format_line true g)
                 = [([0xFE0F]%N, U "consensus_seeking")])
      by (vm_compute; reflexivity).
    rewrite Eg; unfold collect_tokens.
    rewrite (fold_set_distinct (fun m => resolve_to_canonical (fst m))
               (fun m => strip (snd m)));
      [| vm_compute; reflexivity | reflexivity].
    unfold L8, T8; cbn [Dict.empty app map fst snd].
    rewrite !(plain_value_strip mind), !(plain_value_strip topic),
      !(plain_value_strip c), !(plain_value_strip i) by assumption.
    repeat (f_equal; [f_equal; vm_compute; reflexivity|]).
    reflexivity.
  - intros d v Hin; unfold L8 in Hin; cbn [In] in Hin.
    repeat (destruct Hin as [Hin|Hin];
            [inversion Hin; subst; split;
             [vm_compute; reflexivity | first [assumption
                                              | vm_compute; reflexivity]]|]).
    destruct Hin.
Qed.

(** X8.  The initialization message does not parse back to its own
    mapping.  Its raw text is formatted with symbols, and the symbol of
    /govern is written with a variation selector, so when the raw text is
    parsed (participants, topic, context and intent being plain one-line
    values) every entry comes back except that the last key is the
    selector's code point instead of /govern. *)
Theorem initialization_message_reparsed (now now' topic : text)
    (participants : list text) (context intent who : text)
    (kind : AgentType) (e : Engine) :
  plain_value (join (U ", ") participants) = true ->
  plain_value topic = true ->
  plain_value (str_or context (U "Multi-agent dialogue on " ++ topic)) = true ->
  plain_value
    (str_or intent (U "Collaborative exploration and understanding")) = true ->
  let m := fst (initialize_conversation now topic participants context
                  intent e) in
  tokens (parse_message now' (raw_text m) who kind)
  = rename_key (U "/govern") [0xFE0F]%N (tokens m) /\
  Dict.mem (U "/govern") (tokens (parse_message now' (raw_text m) who kind))
  = false.
Proof.
  intros Hm Ht Hc Hi; cbv zeta.
  rewrite tokens_parse_message.
  change (raw_text (fst (initialize_conversation now topic participants
                           context intent e)))
    with (format_message (init_tokens topic participants context intent) true).
  change (tokens (fst (initialize_conversation now topic participants
                         context intent e)))
    with (init_tokens topic participants context intent).
  pose proof (reparse_init_lines _ _ _ _ Hm Ht Hc Hi) as H; cbv zeta in H.
  change (init_tokens topic participants context intent)
    with ([ (U "/mind", join (U ", ") participants); (U "/focus", topic);
            (U "/context",
             str_or context (U "Multi-agent dialogue on " ++ topic));
            (U "/intent",
             str_or intent
               (U "Collaborative exploration and understanding"));
            (U "/deliverable", U "structured_dialogue");
            (U "/timeline", U "ongoing"); (U "/channel", U "text_and_voice");
            (U "/norm", U "respectful_dialogue, ng_protocol_adherence") ]
          ++ [(U "/govern", U "consensus_seeking")]).
  rewrite H; split; reflexivity.
Qed.

Lemma initialization_message_reparsed_witness :
  let m := fst (initialize_conversation (U "t0") (U "parsers")
                  [U "alice"; U "bob"] [] [] new_engine) in
  Dict.mem (U "/govern")
    (tokens (parse_message (U "t1") (raw_text m) (U "alice") HUMAN)) = false.
Proof.
  refine (proj2 (initialization_message_reparsed (U "t0") (U "t1")
                   (U "parsers") [U "alice"; U "bob"] [] [] (U "alice")
                   HUMAN new_engine _ _ _ _));
    vm_compute; reflexivity.
Defined.

(** ** Conversations with model turns *)

Lemma step_history (e : Engine) (c : Call) :
  exists m, conversation_history (step e c) = conversation_history e ++ [m].
Proof.
  destruct c as [now topic ps ctx intent | now s who ty].
  - destruct (step_Initialize e now topic ps ctx intent) as [_ [m [_ H]]].
    eauto.
  - destruct (step_AddMessage e now s who ty) as [_ H]; eauto.
Qed.

Lemma turn_step_cases (gpt : text -> text -> ApiOutcome)
    (claude : text -> ApiOutcome) (e : Engine) (t : Turn) :
  (turn_adds gpt claude e t = false /\ turn_step gpt claude e t = e) \/
  (turn_adds gpt claude e t = true /\
   exists c,
     turn_step gpt claude e t = step e c /\
     (is_initialize t = false ->
      exists now s who kind, c = AddMessage now s who kind)).
Proof.
  assert (G : forall now response who kind prompt t',
    t' = AgentTurn now kind prompt ->
    process_agent_turn gpt claude now kind prompt e
    = add_response now response who kind e ->
    (turn_adds gpt claude e t' = false /\ turn_step gpt claude e t' = e) \/
    (turn_adds gpt claude e t' = true /\
     exists c,
       turn_step gpt claude e t' = step e c /\
       (is_initialize t' = false ->
        exists now s who kind, c = AddMessage now s who kind))).
  { intros now response who kind prompt t' -> Hp.
    unfold turn_adds, turn_step; rewrite Hp.
    destruct response as [s| |message]; cbn [add_response].
    - right; split; [reflexivity|].
      exists (AddMessage now s who kind); split; [reflexivity|].
      intros _; exists now, s, who, kind; reflexivity.
    - left; split; reflexivity.
    - left; split; reflexivity. }
  destruct t as [c | now [| |] prompt].
  - right; split; [reflexivity|].
    exists c; split; [reflexivity|].
    destruct c as [?|now s who kind]; [discriminate|].
    intros _; exists now, s, who, kind; reflexivity.
  - left; split; reflexivity.
  - exact (G now (get_gpt_response gpt e prompt) (U "GPT-4") GPT prompt _
             eq_refl eq_refl).
  - exact (G now (get_claude_response claude e prompt) (U "Claude") CLAUDE
             prompt _ eq_refl eq_refl).
Qed.

Lemma drive_app (gpt : text -> text -> ApiOutcome)
    (claude : text -> ApiOutcome) (turns : list Turn) (t : Turn) :
  drive gpt claude (turns ++ [t]) =
  turn_step gpt claude (drive gpt claude turns) t.
Proof. unfold drive; now rewrite fold_left_app. Qed.

Lemma fold_turns_history (gpt : text -> text -> ApiOutcome)
    (claude : text -> ApiOutcome) (turns : list Turn) (e : Engine) :
  exists added,
    conversation_history (fold_left (turn_step gpt claude) turns e)
    = conversation_history e ++ added /\
    List.length added = added_count gpt claude e turns.
Proof.
  revert e; induction turns as [|t turns IH]; intros e.
  - exists []; split; [now rewrite app_nil_r | reflexivity].
  - cbn [fold_left added_count].
    destruct (IH (turn_step gpt claude e t)) as [added [H1 H2]].
    destruct (turn_step_cases gpt claude e t)
      as [[Ha Hs] | [Ha [c [Hs _]]]]; rewrite Ha.
    + exists added; split; [now rewrite H1, Hs | exact H2].
    + destruct (step_history e c) as [m Hm].
      exists (m :: added); split; [|simpl; now rewrite H2].
      now rewrite H1, Hs, Hm, <- app_assoc.
Qed.

Lemma added_count_le (gpt : text -> text -> ApiOutcome)
    (claude : text -> ApiOutcome) (turns : list Turn) (e : Engine) :
  (added_count gpt claude e turns <= List.length turns)%nat.
Proof.
  revert e; induction turns as [|t turns IH]; intros e; [apply le_n|].
  cbn [added_count List.length].
  specialize (IH (turn_step gpt claude e t)).
  destruct (turn_adds gpt claude e t); lia.
Qed.

(** X9.  The history is append-only.  Carrying a conversation further never
    changes or drops a message already recorded: the history after more
    turns is the earlier history followed by one new message for each turn
    that appends one, at most one a turn.  An initialization and an added
    message always append.  A turn of a model appends exactly when its
    service call returns a text or raises an [Exception]; a turn asked of a
    human, a reply without text and a raise outside [Exception] end the
    call with an exception and leave the engine as it was. *)
Theorem conversation_history_append_only (gpt : text -> text -> ApiOutcome)
    (claude : text -> ApiOutcome) (turns more : list Turn) :
  (exists added,
     conversation_history (drive gpt claude (turns ++ more))
     = conversation_history (drive gpt claude turns) ++ added /\
     List.length added
     = added_count gpt claude (drive gpt claude turns) more /\
     (List.length added <= List.length more)%nat) /\
  (forall e c, turn_adds gpt claude e (Direct c) = true) /\
  (forall e now prompt,
     turn_adds gpt claude e (AgentTurn now HUMAN prompt) = false) /\
  (forall e now prompt,
     turn_adds gpt claude e (AgentTurn now GPT prompt) =
     match gpt (get_conversation_context e) prompt with
     | Returned _ | Raised _ => true
     | ReturnedNone | Escaped _ => false
     end) /\
  (forall e now prompt,
     turn_adds gpt claude e (AgentTurn now CLAUDE prompt) =
     match claude (get_conversation_context e ++ [LF; LF]
                   ++ U "Human message: " ++ prompt) with
     | Returned _ | Raised _ => true
     | ReturnedNone | Escaped _ => false
     end) /\
  (forall e t, turn_adds gpt claude e t = false ->
               turn_step gpt claude e t = e).
Proof.
  split; [|split; [|split; [|split; [|split]]]].
  - unfold drive; rewrite fold_left_app.
    destruct (fold_turns_history gpt claude more
                (fold_left (turn_step gpt claude) turns new_engine))
      as [added [H1 H2]].
    exists added; split; [exact H1 | split; [exact H2|]].
    rewrite H2; apply added_count_le.
  - reflexivity.
  - reflexivity.
  - intros e now prompt.
    unfold turn_adds, process_agent_turn, get_gpt_response.
    destruct (gpt (get_conversation_context e) prompt); reflexivity.
  - intros e now prompt.
    unfold turn_adds, process_agent_turn, get_claude_response.
    destruct (claude _); reflexivity.
  - intros e t H.
    destruct (turn_step_cases gpt claude e t) as [[_ Hs] | [Ha _]];
      [exact Hs | congruence].
Qed.

Lemma sticky_step (e : Engine) (c : Call) :
  (forall k, In k sticky_keys ->
     Dict.get k (active_context e) = last_declared k (conversation_history e)) ->
  forall k, In k sticky_keys ->
    Dict.get k (active_context (step e c))
    = last_declared k (conversation_history (step e c)).
Proof.
  intros IH k Hk.
  destruct c as [now topic ps ctx intent | now s who ty].
  - destruct (step_Initialize e now topic ps ctx intent) as [Ha [m [Hm Hh]]].
    rewrite Ha, Hh, last_declared_app, Hm.
    pose proof (init_tokens_sticky topic ps ctx intent k Hk) as H.
    unfold Dict.mem in H.
    now destruct (Dict.get k (init_tokens topic ps ctx intent)).
  - destruct (step_AddMessage e now s who ty) as [Ha Hh].
    rewrite Ha, Hh, last_declared_app, get_update_active_context.
    pose proof Hk as Hk'; apply existsb_text_eqb_In in Hk'; rewrite Hk'.
    unfold Dict.mem.
    destruct (Dict.get k (tokens (parse_message now s who ty)));
      [reflexivity|].
    now apply IH.
Qed.

Lemma drive_sticky (gpt : text -> text -> ApiOutcome)
    (claude : text -> ApiOutcome) (turns : list Turn) (k : text) :
  In k sticky_keys ->
  Dict.get k (active_context (drive gpt claude turns))
  = last_declared k (conversation_history (drive gpt claude turns)).
Proof.
  revert k; induction turns as [|t turns IH] using rev_ind; intros k Hk.
  - destruct Hk as [<-|[<-|[]]]; reflexivity.
  - rewrite drive_app.
    destruct (turn_step_cases gpt claude (drive gpt claude turns) t)
      as [[_ ->] | [_ [c [-> _]]]].
    + now apply IH.
    + now apply sticky_step.
Qed.

Lemma error_text_no_tokens (label message : text) :
  forallb inert label = true -> ~ In COLON message ->
  tokenize (label ++ message) = [].
Proof.
  intros Hl Hm; unfold tokenize.
  rewrite (findall_inert_prefix _ _ Hl).
  now rewrite (findall_no_token _ (no_colon_no_match _ Hm)).
Qed.

(** X10.  A service call that raises an [Exception] does not fail the
    turn.  When the GPT call raises one, the turn still returns a message,
    from GPT-4, whose text is "GPT Error: " and the exception's message; it
    is appended to the history like any reply.  If the exception's message
    has no colon the message has no tokens, is valid, and leaves the active
    context as it was.  The same holds for Claude with "Claude Error: ".  A
    raise that is no [Exception] passes through, and a reply without text
    ends in the [TypeError] of the parser: then the turn fails and the
    engine is left as it was. *)
Theorem process_agent_turn_api_failure (gpt : text -> text -> ApiOutcome)
    (claude : text -> ApiOutcome) (now prompt message : text) (e : Engine) :
  (gpt (get_conversation_context e) prompt = Raised message ->
   exists m,
     process_agent_turn gpt claude now GPT prompt e
     = (inr m,
        {| conversation_history := conversation_history e ++ [m];
           active_context := update_active_context (active_context e) m |}) /\
     agent m = U "GPT-4" /\
     raw_text m = U "GPT Error: " ++ message /\
     (~ In COLON message ->
      tokens m = [] /\ is_valid m = true /\
      update_active_context (active_context e) m = active_context e)) /\
  (claude (get_conversation_context e ++ [LF; LF] ++ U "Human message: "
           ++ prompt) = Raised message ->
   exists m,
     process_agent_turn gpt claude now CLAUDE prompt e
     = (inr m,
        {| conversation_history := conversation_history e ++ [m];
           active_context := update_active_context (active_context e) m |}) /\
     agent m = U "Claude" /\
     raw_text m = U "Claude Error: " ++ message /\
     (~ In COLON message ->
      tokens m = [] /\ is_valid m = true /\
      update_active_context (active_context e) m = active_context e)) /\
  (gpt (get_conversation_context e) prompt = Escaped message ->
   process_agent_turn gpt claude now GPT prompt e = (inl message, e)) /\
  (claude (get_conversation_context e ++ [LF; LF] ++ U "Human message: "
           ++ prompt) = Escaped message ->
   process_agent_turn gpt claude now CLAUDE prompt e = (inl message, e)) /\
  (gpt (get_conversation_context e) prompt = ReturnedNone ->
   process_agent_turn gpt claude now GPT prompt e
   = (inl FINDALL_TYPE_ERROR, e)) /\
  (claude (get_conversation_context e ++ [LF; LF] ++ U "Human message: "
           ++ prompt) = ReturnedNone ->
   process_agent_turn gpt claude now CLAUDE prompt e
   = (inl FINDALL_TYPE_ERROR, e)).
Proof.
  assert (G : forall label who kind,
    forallb inert label = true ->
    let m := parse_message now (label ++ message) who kind in
    agent m = who /\ raw_text m = label ++ message /\
    (~ In COLON message ->
     tokens m = [] /\ is_valid m = true /\
     update_active_context (active_context e) m = active_context e)).
  { intros label who kind Hl m.
    assert (Ht : ~ In COLON message -> tokens m = []).
    { intros Hm; unfold m; rewrite tokens_parse_message.
      now apply error_text_no_tokens. }
    unfold m, parse_message.
    destruct (validate_message (tokenize (label ++ message)) [])
      as [ok errs] eqn:E.
    split; [reflexivity | split; [reflexivity|]].
    intros Hm; specialize (Ht Hm).
    unfold m in Ht; rewrite tokens_parse_message in Ht.
    rewrite Ht in E; vm_compute in E; inversion E; subst.
    cbn [tokens is_valid NeuroGlyphMessage_init].
    split; [exact Ht | split; [reflexivity|]].
    unfold update_active_context;
      cbn [tokens NeuroGlyphMessage_init]; now rewrite Ht. }
  split; [|split; [|split; [|split; [|split]]]]; intros H.
  - exists (parse_message now (U "GPT Error: " ++ message) (U "GPT-4") GPT).
    split.
    + unfold process_agent_turn, get_gpt_response; rewrite H; reflexivity.
    + apply (G (U "GPT Error: ") (U "GPT-4") GPT); vm_compute; reflexivity.
  - exists (parse_message now (U "Claude Error: " ++ message) (U "Claude")
              CLAUDE).
    split.
    + unfold process_agent_turn, get_claude_response; rewrite H; reflexivity.
    + apply (G (U "Claude Error: ") (U "Claude") CLAUDE);
        vm_compute; reflexivity.
  - unfold process_agent_turn, get_gpt_response; rewrite H; reflexivity.
  - unfold process_agent_turn, get_claude_response; rewrite H; reflexivity.
  - unfold process_agent_turn, get_gpt_response; rewrite H; reflexivity.
  - unfold process_agent_turn, get_claude_response; rewrite H; reflexivity.
Qed.

(** X11.  With model turns in the conversation, and whatever the services
    answer or raise, the two sticky keys keep following the history: after
    any sequence of turns /context and /focus have in the active context
    the value of the last recorded message that declared them, a model's
    reply counting like any other message, and a refused turn changes
    neither the history nor the active context. *)
Theorem drive_sticky_keys_follow_history (gpt : text -> text -> ApiOutcome)
    (claude : text -> ApiOutcome) (turns : list Turn) :
  (forall k, In k sticky_keys ->
     Dict.get k (active_context (drive gpt claude turns))
     = last_declared k (conversation_history (drive gpt claude turns))) /\
  (forall now prompt,
     drive gpt claude (turns ++ [AgentTurn now HUMAN prompt])
     = drive gpt claude turns /\
     fst (process_agent_turn gpt claude now HUMAN prompt
            (drive gpt claude turns))
     = inl (U "Invalid agent type for processing: AgentType.HUMAN")).
Proof.
  split.
  - intros k Hk; now apply drive_sticky.
  - intros now prompt; split; [|reflexivity].
    now rewrite drive_app.
Qed.

Lemma process_agent_turn_api_failure_witness :
  exists m,
    process_agent_turn (fun _ _ => Raised (U "timeout"))
      (fun _ => Returned []) (U "t1") GPT (U "hello") new_engine
    = (inr m,
       {| conversation_history := [m];
          active_context := update_active_context Dict.empty m |}) /\
    agent m = U "GPT-4" /\
    raw_text m = U "GPT Error: timeout" /\
    (~ In COLON (U "timeout") ->
     tokens m = [] /\ is_valid m = true /\
     update_active_context Dict.empty m = Dict.empty).
Proof.
  exact (proj1 (process_agent_turn_api_failure
                  (fun _ _ => Raised (U "timeout")) (fun _ => Returned [])
                  (U "t1") (U "hello") (U "timeout") new_engine) eq_refl).
Defined.

(** ** The prompt context *)

Lemma last_three_app {A : Type} (old recent : list A) :
  (3 <= List.length recent)%nat ->
  last_three (old ++ recent) = last_three recent.
Proof.
  intros H; unfold last_three.
  rewrite length_app, skipn_app.
  rewrite skipn_all2 by lia.
  cbn [app]; f_equal; lia.
Qed.

(** X12.  The prompt context shows the last three messages only: two
    engines with the same active context whose histories end with the same
    three or more messages give the same context text, whatever came
    before; and a history of at most three messages is shown whole. *)
Theorem get_conversation_context_window (ctx : Dict.t text)
    (old1 old2 recent : list NeuroGlyphMessage) :
  (3 <= List.length recent)%nat ->
  get_conversation_context
    {| conversation_history := old1 ++ recent; active_context := ctx |}
  = get_conversation_context
      {| conversation_history := old2 ++ recent; active_context := ctx |}
  /\ (forall h : list NeuroGlyphMessage,
        (List.length h <= 3)%nat -> last_three h = h).
Proof.
  intros H; split.
  - unfold get_conversation_context;
      cbn [conversation_history active_context].
    now rewrite !last_three_app by exact H.
  - intros h Hh; unfold last_three.
    replace (List.length h - 3)%nat with 0%nat by lia; reflexivity.
Qed.

Lemma get_conversation_context_window_witness :
  let m := synthesize (U "t") Dict.empty (U "a") HUMAN in
  get_conversation_context
    {| conversation_history := [m; m] ++ [m; m; m];
       active_context := Dict.empty |}
  = get_conversation_context
      {| conversation_history := [] ++ [m; m; m];
         active_context := Dict.empty |}.
Proof.
  cbv zeta.
  refine (proj1 (get_conversation_context_window Dict.empty _ _ _ _)).
  simpl; lia.
Defined.

Lemma get_default_Some (k default v : text) (d : Dict.t text) :
  Dict.get k d = Some v -> get_default k default d = v.
Proof. unfold get_default; now intros ->. Qed.

Lemma step_add_keeps (e : Engine) (now s who : text) (kind : AgentType)
    (k : text) :
  Dict.get k (active_context (step e (AddMessage now s who kind))) =
  if existsb (text_eqb k) sticky_keys
     && Dict.mem k (tokens (parse_message now s who kind))
  then Dict.get k (tokens (parse_message now s who kind))
  else Dict.get k (active_context e).
Proof.
  destruct (step_AddMessage e now s who kind) as [-> _].
  apply get_update_active_context.
Qed.

Lemma initialized_context (gpt : text -> text -> ApiOutcome)
    (claude : text -> ApiOutcome) (before after : list Turn)
    (now topic : text) (participants : list text) (context intent : text) :
  forallb (fun t => negb (is_initialize t)) after = true ->
  let e := drive gpt claude
             (before
              ++ Direct (Initialize now topic participants context intent)
              :: after) in
  Dict.get (U "/mind") (active_context e)
    = Some (join (U ", ") participants) /\
  Dict.get (U "/context") (active_context e) <> None /\
  Dict.get (U "/focus") (active_context e) <> None.
Proof.
  induction after as [|t after IH] using rev_ind; intros Ha; cbv zeta.
  - rewrite drive_app.
    cbn [turn_step].
    destruct (step_Initialize (drive gpt claude before) now topic
                participants context intent) as [-> _].
    repeat split; discriminate.
  - rewrite forallb_app in Ha; apply andb_true_iff in Ha.
    destruct Ha as [Ha Ht]; specialize (IH Ha); cbv zeta in IH.
    change (before
            ++ Direct (Initialize now topic participants context intent)
            :: after ++ [t])
      with (before
            ++ (Direct (Initialize now topic participants context intent)
                :: after) ++ [t]).
    rewrite app_assoc, drive_app.
    set (e := drive gpt claude
                (before
                 ++ Direct (Initialize now topic participants context intent)
                 :: after)) in *.
    destruct IH as [Hm [Hc Hf]].
    assert (G : forall now' s who kind,
      let e' := step e (AddMessage now' s who kind) in
      Dict.get (U "/mind") (active_context e')
        = Some (join (U ", ") participants) /\
      Dict.get (U "/context") (active_context e') <> None /\
      Dict.get (U "/focus") (active_context e') <> None).
    { intros now' s who kind; cbv zeta.
      rewrite !step_add_keeps.
      split; [exact Hm|].
      unfold Dict.mem; split.
      - change (existsb (text_eqb (U "/context")) sticky_keys) with true.
        cbn [andb].
        destruct (Dict.get (U "/context")
                    (tokens (parse_message now' s who kind)));
          [discriminate | exact Hc].
      - change (existsb (text_eqb (U "/focus")) sticky_keys) with true.
        cbn [andb].
        destruct (Dict.get (U "/focus")
                    (tokens (parse_message now' s who kind)));
          [discriminate | exact Hf]. }
    assert (Hi : is_initialize t = false).
    { cbn [forallb] in Ht; rewrite andb_true_r in Ht.
      now apply negb_true_iff in Ht. }
    destruct (turn_step_cases gpt claude e t)
      as [[_ ->] | [_ [c [-> Hc']]]].
    + repeat split; assumption.
    + destruct (Hc' Hi) as [now' [s [who [kind ->]]]]; apply G.
Qed.

(** X13.  Once a conversation has been initialized, the prompt context
    never falls back on its defaults: its "Active context" and "Current
    focus" lines show the values of the last messages that declared
    /context and /focus, and its "Participants" line shows the participants
    of the last initialization, whatever later messages or model replies
    declare under /mind. *)
Theorem get_conversation_context_initialized
    (gpt : text -> text -> ApiOutcome) (claude : text -> ApiOutcome)
    (before after : list Turn) (now topic : text)
    (participants : list text) (context intent : text) :
  forallb (fun t => negb (is_initialize t)) after = true ->
  let e := drive gpt claude
             (before
              ++ Direct (Initialize now topic participants context intent)
              :: after) in
  exists c f,
    last_declared (U "/context") (conversation_history e) = Some c /\
    last_declared (U "/focus") (conversation_history e) = Some f /\
    get_conversation_context e
    = join [LF]
        (context_parts c f (join (U ", ") participants)
           (last_three (conversation_history e))).
Proof.
  intros Ha; cbv zeta.
  destruct (initialized_context gpt claude before after now topic
              participants context intent Ha) as [Hm [Hc Hf]].
  set (e := drive gpt claude
              (before
               ++ Direct (Initialize now topic participants context intent)
               :: after)) in *.
  destruct (Dict.get (U "/context") (active_context e)) as [c|] eqn:Ec;
    [|contradiction].
  destruct (Dict.get (U "/focus") (active_context e)) as [f|] eqn:Ef;
    [|contradiction].
  exists c, f.
  split; [|split].
  - rewrite <- Ec; symmetry; apply drive_sticky; vm_compute; tauto.
  - rewrite <- Ef; symmetry; apply drive_sticky; vm_compute; tauto.
  - unfold get_conversation_context.
    now rewrite (get_default_Some _ _ _ _ Ec), (get_default_Some _ _ _ _ Ef),
      (get_default_Some _ _ _ _ Hm).
Qed.

Lemma get_conversation_context_initialized_witness :
  let e := drive (fun _ _ => Returned (U "/mind: gpt")) (fun _ => Returned [])
             ([] ++ Direct (Initialize (U "t0") (U "parsers") [U "alice"]
                              [] [])
              :: [AgentTurn (U "t1") GPT (U "hello")]) in
  exists c f,
    last_declared (U "/context") (conversation_history e) = Some c /\
    last_declared (U "/focus") (conversation_history e) = Some f /\
    get_conversation_context e
    = join [LF]
        (context_parts c f (join (U ", ") [U "alice"])
           (last_three (conversation_history e))).
Proof.
  apply (get_conversation_context_initialized
           (fun _ _ => Returned (U "/mind: gpt")) (fun _ => Returned [])
           [] [AgentTurn (U "t1") GPT (U "hello")]
           (U "t0") (U "parsers") [U "alice"] [] []).
  reflexivity.
Defined.

(** ** What is read out *)

Lemma split_on_app (sep : N) (l r : text) :
  ~ In sep l -> split_on sep (l ++ sep :: r) = l :: split_on sep r.
Proof.
  induction l as [|c l IH]; intros H; cbn [app split_on].
  - now rewrite N.eqb_refl.
  - assert (Hc : (c =? sep)%N = false)
      by (apply N.eqb_neq; intros ->; apply H; now left).
    rewrite Hc, IH; [reflexivity | intros Hl; apply H; now right].
Qed.

Lemma split_on_whole (sep : N) (l : text) :
  ~ In sep l -> split_on sep l = [l].
Proof.
  induction l as [|c l IH]; intros H; cbn [split_on]; [reflexivity|].
  assert (Hc : (c =? sep)%N = false)
    by (apply N.eqb_neq; intros ->; apply H; now left).
  rewrite Hc, IH; [reflexivity | intros Hl; apply H; now right].
Qed.

Lemma split_on_join (lines : list text) :
  lines <> [] -> (forall l, In l lines -> ~ In LF l) ->
  split_on LF (join [LF] lines) = lines.
Proof.
  induction lines as [|l lines IH]; [contradiction|]; intros _ H.
  destruct lines as [|l' lines].
  - cbn [join]; apply split_on_whole, H; now left.
  - rewrite join_cons; change ([LF] ++ join [LF] (l' :: lines))
      with (LF :: join [LF] (l' :: lines)).
    rewrite split_on_app by (apply H; now left).
    rewrite IH; [reflexivity | discriminate |].
    intros x Hx; apply H; now right.
Qed.

Lemma contains_In (sep : N) (s : text) : contains sep s = true <-> In sep s.
Proof.
  unfold contains; rewrite existsb_exists; split.
  - intros [x [Hx E]]; apply N.eqb_eq in E; now subst.
  - intros H; exists sep; split; [exact H | apply N.eqb_refl].
Qed.

Lemma split_once_app (sep : N) (a b : text) :
  ~ In sep a -> split_once sep (a ++ sep :: b) = (a, b).
Proof.
  induction a as [|c a IH]; intros H; cbn [app split_once].
  - now rewrite N.eqb_refl.
  - assert (Hc : (c =? sep)%N = false)
      by (apply N.eqb_neq; intros ->; apply H; now left).
    rewrite Hc, IH; [reflexivity | intros Hl; apply H; now right].
Qed.

Lemma line_content_declaration (token value : text) :
  ~ In COLON token ->
  line_content (token ++ COLON :: value) =
  if unspoken token then [] else [strip value].
Proof.
  intros H; unfold line_content.
  assert (Hc : contains COLON (token ++ COLON :: value) = true)
    by (apply contains_In, in_or_app; right; now left).
  now rewrite Hc, split_once_app.
Qed.

Lemma strip_strip (v : text) : strip (strip v) = strip v.
Proof.
  destruct (strip_trimmed v) as [Hl Hr].
  unfold strip at 1; now rewrite Hl.
Qed.

Lemma strip_leading_space (v : text) : strip (SPACE :: v) = strip v.
Proof. reflexivity. Qed.

(** X14.  Reading out a message formatted without symbols says exactly the
    trimmed values of the tokens that are not on the unspoken list, in
    order, separated by single spaces (keys without colon or line feed,
    values on one line); the entries of the eight unspoken tokens
    contribute nothing. *)
Theorem speech_of_canonical_rendering (T : Dict.t text) :
  (forall k v, In (k, v) T -> ~ In COLON k /\ ~ In LF k /\ ~ In LF v) ->
  speech_text (format_message T false) =
  strip (join [SPACE]
           (map (fun kv => strip (snd kv))
              (filter (fun kv => negb (unspoken (fst kv))) T))).
Proof.
  intros HT; destruct T as [|kv0 T0] eqn:ET; [reflexivity|].
  rewrite <- ET in *; unfold speech_text, format_message.
  assert (Hne : map (format_line false) T <> [])
    by (rewrite ET; discriminate).
  rewrite split_on_join; [|exact Hne|].
  - f_equal; f_equal; clear ET Hne.
    induction T as [|[k v] T IH]; [reflexivity|].
    cbn [map flat_map filter fst snd].
    destruct (HT k v (or_introl eq_refl)) as [Hk _].
    unfold format_line at 1; cbn [fst snd display_token].
    change (k ++ [COLON; SPACE] ++ v) with (k ++ COLON :: SPACE :: v).
    rewrite (line_content_declaration k (SPACE :: v) Hk), strip_leading_space.
    rewrite IH by (intros; apply HT; now right).
    now destruct (unspoken k).
  - intros l Hl; apply in_map_iff in Hl.
    destruct Hl as [[k v] [<- Hin]].
    destruct (HT k v Hin) as [_ [Hk Hv]].
    unfold format_line; cbn [fst snd display_token].
    intros Hx; apply in_app_or in Hx; destruct Hx as [Hx|Hx]; [tauto|].
    destruct Hx as [Hx|[Hx|Hx]]; try discriminate; tauto.
Qed.

Lemma speech_of_canonical_rendering_witness :
  speech_text
    (format_message
       [(U "/mind", U "alice"); (U "/act", U "ship it");
        (U "/note", U " soon ")] false)
  = U "ship it soon".
Proof.
  rewrite speech_of_canonical_rendering.
  - vm_compute; reflexivity.
  - intros k v H; vm_compute in H.
    destruct H as [H|[H|[H|[]]]]; inversion H; subst;
      repeat split; intros Hx; vm_compute in Hx;
      repeat (destruct Hx as [Hx|Hx]; [discriminate|]); exact Hx.
Defined.

Lemma registered_symbols_spoken (sym canonical : text) :
  Dict.get sym CORE_TOKENS = Some canonical ->
  unspoken sym = false /\ ~ In COLON sym.
Proof.
  intros H; apply get_In in H.
  assert (G : forallb
                (fun kv : text * text =>
                   negb (unspoken (fst kv)) && negb (contains COLON (fst kv)))
                CORE_TOKENS = true) by (vm_compute; reflexivity).
  rewrite forallb_forall in G; specialize (G _ H); cbn [fst] in G.
  apply andb_true_iff in G; destruct G as [G1 G2].
  apply negb_true_iff in G1, G2; split; [exact G1|].
  intros Hc; apply contains_In in Hc; congruence.
Qed.

(** X15.  The unspoken list holds canonical spellings only, so writing a
    token as its symbol gets its line read out: a line that declares any
    registered symbol is spoken as its trimmed value, also when the
    symbol's canonical identifier is on the unspoken list, whose line in
    canonical spelling is dropped.  What reaches the speech engine is never
    empty and has no whitespace at either end. *)
Theorem speak_text_symbol_lines (sym canonical value : text) :
  Dict.get sym CORE_TOKENS = Some canonical ->
  ~ In LF sym -> ~ In LF value ->
  speech_text (sym ++ COLON :: value) = strip value /\
  (unspoken canonical = true -> ~ In COLON canonical -> ~ In LF canonical ->
   speech_text (canonical ++ COLON :: value) = []) /\
  (forall s spoken, speak_text s = Some spoken ->
                    spoken <> [] /\ trimmed spoken).
Proof.
  intros H Hl Hv.
  destruct (registered_symbols_spoken _ _ H) as [Hu Hc].
  assert (L : forall tok, ~ In LF tok ->
            split_on LF (tok ++ COLON :: value) = [tok ++ COLON :: value]).
  { intros tok Ht; apply split_on_whole.
    intros Hx; apply in_app_or in Hx.
    destruct Hx as [Hx|[Hx|Hx]]; [tauto | discriminate | tauto]. }
  split; [|split].
  - unfold speech_text; rewrite (L sym Hl); cbn [flat_map].
    rewrite app_nil_r, (line_content_declaration sym value Hc), Hu.
    cbn [join]; apply strip_strip.
  - intros Hu' Hc' Hl'.
    unfold speech_text; rewrite (L canonical Hl'); cbn [flat_map].
    rewrite app_nil_r, (line_content_declaration canonical value Hc'), Hu'.
    reflexivity.
  - intros s spoken; unfold speak_text.
    pose proof (strip_trimmed
                  (join [SPACE] (flat_map line_content (split_on LF s)))) as Ht.
    fold (speech_text s) in Ht.
    destruct (speech_text s) as [|c r]; [discriminate|].
    intros E; inversion E; subst; split; [discriminate | exact Ht].
Qed.

Lemma speak_text_symbol_lines_witness :
  speech_text (U "🧠" ++ COLON :: U " alice") = strip (U " alice") /\
  speech_text (U "/mind" ++ COLON :: U " alice") = [].
Proof.
  destruct (speak_text_symbol_lines (U "🧠") (U "/mind") (U " alice"))
    as [H1 [H2 _]].
  - vm_compute; reflexivity.
  - vm_compute; intros H; repeat (destruct H as [H|H]; [discriminate|]);
      exact H.
  - vm_compute; intros H; repeat (destruct H as [H|H]; [discriminate|]);
      exact H.
  - split; [exact H1|].
    apply H2; [vm_compute; reflexivity | |];
      vm_compute; intros H; repeat (destruct H as [H|H]; [discriminate|]);
      exact H.
Defined.
